(** * Playback, favorites and history logic of the music player (src/src/App.jsx)

    Shallow embedding of the state logic of the main [App] component:
    the Recently-Played updater inside [playTrack], [toggleFavorite] and
    [isFavorite], the [useState] initializers that read localStorage,
    [playNext] / [playPrevious], [togglePlayPause], [handleTimeUpdate],
    [handleProgressClick], [searchMusic] and the volume/mute effect.

    JavaScript numbers are modelled by [num] (rationals plus NaN and the
    two infinities); a JS value that may be [undefined] is an [option];
    a call that may throw returns a [js_result]. *)

From Stdlib Require Import ZArith QArith Qminmax Qround Lqa List Bool String Ascii Lia.
Import ListNotations.
Open Scope Z_scope.
Set Warnings "-register-all".

(** ** JavaScript results and numbers *)

Inductive js_error :=
| TypeError
| SyntaxError
| AxiosError.

Inductive js_result (A : Type) :=
| Ok (a : A)
| Throw (e : js_error).
Arguments Ok {A} a.
Arguments Throw {A} e.

Definition js_bind {A B} (m : js_result A) (k : A -> js_result B) : js_result B :=
  match m with
  | Ok a => k a
  | Throw e => Throw e
  end.

Notation "x <- m ;; k" := (js_bind m (fun x => k))
  (at level 61, m at next level, right associativity).

(** ** Tracks *)

(** A Deezer track record; only the fields the logic reads are kept. *)
Record Track := mkTrack {
  id : Z;
  title : string;
  preview : string
}.

(** [t.id] on a value that may be [undefined]. *)
Definition get_id (v : option Track) : js_result Z :=
  match v with
  | Some t => Ok (id t)
  | None => Throw TypeError
  end.

(** [Array.prototype.filter] with a callback that may throw: the callback
    runs on every element from left to right. *)
Fixpoint js_filter {A} (p : A -> js_result bool) (l : list A) : js_result (list A) :=
  match l with
  | [] => Ok []
  | x :: r =>
      b <- p x ;;
      r' <- js_filter p r ;;
      Ok (if b then x :: r' else r')
  end.

(** ** Recently played: the updater passed to [setRecentlyPlayed] in
    [playTrack]
<<
    setRecentlyPlayed((prev) => {
      const filtered = prev.filter((t) => t.id !== track.id);
      return [track, ...filtered].slice(0, 10);
    });
>>
    Entries and the argument are JS values, so they may be [undefined]. *)
Definition recordPlay (track : option Track) (prev : list (option Track))
    : js_result (list (option Track)) :=
  filtered <- js_filter (fun t => a <- get_id t ;; b <- get_id track ;; Ok (negb (a =? b))) prev ;;
  Ok (firstn 10 (track :: filtered)).

(** ** Favorites: [toggleFavorite] and [isFavorite] *)

(** The updater passed to [setFavorites]:
<<
    const isFavorited = prev.some((fav) => fav.id === track.id);
    if (isFavorited) return prev.filter((fav) => fav.id !== track.id);
    else return [...prev, track];
>> *)
Definition toggleFavorite (track : Track) (prev : list Track) : list Track :=
  let isFavorited := existsb (fun fav => id fav =? id track) prev in
  if isFavorited
  then filter (fun fav => negb (id fav =? id track)) prev
  else prev ++ [track].

(** [const isFavorite = (trackId) => favorites.some((fav) => fav.id === trackId);] *)
Definition isFavorite (favorites : list Track) (trackId : Z) : bool :=
  existsb (fun fav => id fav =? trackId) favorites.

(** A sequence of [toggleFavorite] calls, each a separate user event, so
    the functional updates compose in order. *)
Definition run_toggles (calls : list Track) (start : list Track) : list Track :=
  fold_left (fun favs t => toggleFavorite t favs) calls start.

(** Number of calls in [calls] whose argument carries identifier [k]. *)
Definition calls_with_id (calls : list Track) (k : Z) : nat :=
  List.length (filter (fun t => id t =? k) calls).

(** ** [JSON.parse] and the storage initializers *)

(** JSON values as [JSON.parse] returns them. *)
Inductive json :=
| JNull
| JBool (b : bool)
| JNum (q : Q)
| JStr (s : string)
| JArr (items : list json)
| JObj (members : list (string * json)).

Definition is_ws (c : ascii) : bool :=
  match nat_of_ascii c with
  | 32 | 9 | 10 | 13 => true
  | _ => false
  end%nat.

Fixpoint skip_ws (cs : list ascii) : list ascii :=
  match cs with
  | c :: r => if is_ws c then skip_ws r else cs
  | [] => []
  end.

Definition digit_val (c : ascii) : option Z :=
  let n := nat_of_ascii c in
  if (48 <=? n)%nat && (n <=? 57)%nat then Some (Z.of_nat n - 48) else None.

Definition hex_val (c : ascii) : option Z :=
  let n := Z.of_nat (nat_of_ascii c) in
  if (48 <=? n) && (n <=? 57) then Some (n - 48)
  else if (65 <=? n) && (n <=? 70) then Some (n - 55)
  else if (97 <=? n) && (n <=? 102) then Some (n - 87)
  else None.

(** Maximal run of decimal digits: the digits and the rest of the input. *)
Fixpoint take_digits (cs : list ascii) : list Z * list ascii :=
  match cs with
  | c :: r =>
      match digit_val c with
      | Some d => let '(ds, rest) := take_digits r in (d :: ds, rest)
      | None => ([], cs)
      end
  | [] => ([], [])
  end.

Definition digits_value (ds : list Z) : Z :=
  fold_left (fun acc d => 10 * acc + d) ds 0.

(** [-? (0 | [1-9][0-9]* ) (. [0-9]+)? ([eE] [+-]? [0-9]+)?] *)
Definition parse_number (cs : list ascii) : js_result (Q * list ascii) :=
  let '(neg, cs1) := match cs with
                     | "-"%char :: r => (true, r)
                     | _ => (false, cs)
                     end in
  let '(ip, cs2) := take_digits cs1 in
  match ip with
  | [] => Throw SyntaxError
  | 0 :: _ :: _ => Throw SyntaxError
  | _ =>
      fp_cs3 <- match cs2 with
                | "."%char :: r =>
                    let '(fp, r') := take_digits r in
                    match fp with [] => Throw SyntaxError | _ => Ok (fp, r') end
                | _ => Ok ([], cs2)
                end ;;
      let '(fp, cs3) := fp_cs3 in
      ex_cs4 <- match cs3 with
                | c :: r =>
                    if (c =? "e")%char || (c =? "E")%char then
                      let '(eneg, r1) := match r with
                                         | "-"%char :: r' => (true, r')
                                         | "+"%char :: r' => (false, r')
                                         | _ => (false, r)
                                         end in
                      let '(eds, r2) := take_digits r1 in
                      match eds with
                      | [] => Throw SyntaxError
                      | _ => Ok ((if eneg then - digits_value eds else digits_value eds), r2)
                      end
                    else Ok (0, cs3)
                | [] => Ok (0, cs3)
                end ;;
      let '(ex, cs4) := ex_cs4 in
      let mant := digits_value (ip ++ fp) in
      let m := Qmake (if neg then - mant else mant)
                     (Z.to_pos (10 ^ Z.of_nat (List.length fp))) in
      let scale := if 0 <=? ex then inject_Z (10 ^ ex) else Qmake 1 (Z.to_pos (10 ^ (- ex))) in
      Ok (m * scale, cs4)%Q
  end.

(** The one-character escapes: quote, backslash, slash, b, f, n, r, t. *)
Definition dquote : ascii := ascii_of_nat 34.

Definition simple_escape (e : ascii) : option ascii :=
  if (e =? dquote)%char then Some dquote
  else if (e =? "\")%char then Some "\"%char
  else if (e =? "/")%char then Some "/"%char
  else if (e =? "b")%char then Some (ascii_of_nat 8)
  else if (e =? "f")%char then Some (ascii_of_nat 12)
  else if (e =? "n")%char then Some (ascii_of_nat 10)
  else if (e =? "r")%char then Some (ascii_of_nat 13)
  else if (e =? "t")%char then Some (ascii_of_nat 9)
  else None.

(** Body of a string literal, after the opening quote. A [\uXXXX] code
    unit is kept as its low byte, strings being modelled over [ascii]. *)
Fixpoint parse_chars (cs : list ascii) : js_result (list ascii * list ascii) :=
  match cs with
  | [] => Throw SyntaxError
  | c :: r =>
      if (c =? dquote)%char then Ok ([], r)
      else if (nat_of_ascii c <? 32)%nat then Throw SyntaxError
      else if (c =? "\")%char then
        match r with
        | e :: r' =>
            match simple_escape e with
            | Some x => p <- parse_chars r' ;; let '(s, rest) := p in Ok (x :: s, rest)
            | None =>
                if (e =? "u")%char then
                  match r' with
                  | h1 :: h2 :: h3 :: h4 :: r'' =>
                      match hex_val h1, hex_val h2, hex_val h3, hex_val h4 with
                      | Some a, Some b, Some c', Some d =>
                          let code := ((a * 16 + b) * 16 + c') * 16 + d in
                          p <- parse_chars r'' ;; let '(s, rest) := p in
                          Ok (ascii_of_nat (Z.to_nat (code mod 256)) :: s, rest)
                      | _, _, _, _ => Throw SyntaxError
                      end
                  | _ => Throw SyntaxError
                  end
                else Throw SyntaxError
            end
        | [] => Throw SyntaxError
        end
      else p <- parse_chars r ;; let '(s, rest) := p in Ok (c :: s, rest)
  end.

Definition parse_string (cs : list ascii) : js_result (string * list ascii) :=
  match cs with
  | c :: r =>
      if (c =? dquote)%char then
        p <- parse_chars r ;; let '(s, rest) := p in Ok (string_of_list_ascii s, rest)
      else Throw SyntaxError
  | [] => Throw SyntaxError
  end.

Fixpoint starts_with (p cs : list ascii) : option (list ascii) :=
  match p, cs with
  | [], _ => Some cs
  | x :: p', y :: cs' => if (x =? y)%char then starts_with p' cs' else None
  | _ :: _, [] => None
  end.

(** Recursive descent; [fuel] bounds the nesting and the number of
    elements, and is chosen large enough by [JSON_parse]. *)
Fixpoint parse_value (fuel : nat) (cs : list ascii) : js_result (json * list ascii) :=
  match fuel with
  | O => Throw SyntaxError
  | S f =>
      match cs with
      | "["%char :: r =>
          let r := skip_ws r in
          match r with
          | "]"%char :: r' => Ok (JArr [], r')
          | _ => p <- parse_elements f r ;; let '(xs, rest) := p in Ok (JArr xs, rest)
          end
      | "{"%char :: r =>
          let r := skip_ws r in
          match r with
          | "}"%char :: r' => Ok (JObj [], r')
          | _ => p <- parse_members f r ;; let '(ms, rest) := p in Ok (JObj ms, rest)
          end
      | c :: _ =>
          if (c =? dquote)%char then
            p <- parse_string cs ;; let '(s, rest) := p in Ok (JStr s, rest)
          else
          match starts_with (list_ascii_of_string "true") cs,
                starts_with (list_ascii_of_string "false") cs,
                starts_with (list_ascii_of_string "null") cs with
          | Some rest, _, _ => Ok (JBool true, rest)
          | _, Some rest, _ => Ok (JBool false, rest)
          | _, _, Some rest => Ok (JNull, rest)
          | None, None, None =>
              p <- parse_number cs ;; let '(q, rest) := p in Ok (JNum q, rest)
          end
      | [] => Throw SyntaxError
      end
  end
(** [value (ws , ws value)* ws ]] *)
with parse_elements (fuel : nat) (cs : list ascii) : js_result (list json * list ascii) :=
  match fuel with
  | O => Throw SyntaxError
  | S f =>
      p <- parse_value f cs ;; let '(v, r) := p in
      match skip_ws r with
      | ","%char :: r' =>
          p' <- parse_elements f (skip_ws r') ;; let '(vs, rest) := p' in Ok (v :: vs, rest)
      | "]"%char :: r' => Ok ([v], r')
      | _ => Throw SyntaxError
      end
  end
(** [string ws : ws value (ws , ws string ws : ws value)* ws }] *)
with parse_members (fuel : nat) (cs : list ascii) : js_result (list (string * json) * list ascii) :=
  match fuel with
  | O => Throw SyntaxError
  | S f =>
      pk <- parse_string cs ;; let '(k, r) := pk in
      match skip_ws r with
      | ":"%char :: r1 =>
          p <- parse_value f (skip_ws r1) ;; let '(v, r2) := p in
          match skip_ws r2 with
          | ","%char :: r' =>
              p' <- parse_members f (skip_ws r') ;; let '(ms, rest) := p' in Ok ((k, v) :: ms, rest)
          | "}"%char :: r' => Ok ([(k, v)], r')
          | _ => Throw SyntaxError
          end
      | _ => Throw SyntaxError
      end
  end.

(** [JSON.parse(text)]: one value between optional white space, nothing
    after it; otherwise a [SyntaxError] is thrown. *)
Definition JSON_parse (text : string) : js_result json :=
  let cs := list_ascii_of_string text in
  p <- parse_value (2 * List.length cs + 2) (skip_ws cs) ;;
  let '(v, rest) := p in
  match skip_ws rest with
  | [] => Ok v
  | _ => Throw SyntaxError
  end.

(** The [useState] initializers of [favorites] and [recentlyPlayed]:
<<
    const saved = localStorage.getItem("musicFavorites");
    return saved ? JSON.parse(saved) : [];
>>
    [getItem] returns [null] ([None]) for an absent key; a string is
    truthy iff it is non-empty. *)
Definition init_from_storage (saved : option string) : js_result json :=
  match saved with
  | None => Ok (JArr [])
  | Some s => if (s =? EmptyString)%string then Ok (JArr []) else JSON_parse s
  end.

(** ** JavaScript numbers *)

(** A JS number: a finite value, [NaN], or an infinity ([true] for +∞). *)
Inductive num :=
| Fin (q : Q)
| NaN
| Inf (pos : bool).

Definition num_div (x y : num) : num :=
  match x, y with
  | NaN, _ | _, NaN => NaN
  | Fin a, Fin b =>
      if Qeq_bool b 0 then
        if Qeq_bool a 0 then NaN else Inf (Qle_bool 0 a)
      else Fin (a / b)
  | Fin _, Inf _ => Fin 0
  | Inf p, Fin b => Inf (Bool.eqb p (Qle_bool 0 b))
  | Inf _, Inf _ => NaN
  end.

Definition num_mul (x y : num) : num :=
  match x, y with
  | NaN, _ | _, NaN => NaN
  | Fin a, Fin b => Fin (a * b)
  | Fin a, Inf p | Inf p, Fin a =>
      if Qeq_bool a 0 then NaN else Inf (Bool.eqb p (Qle_bool 0 a))
  | Inf p, Inf p' => Inf (Bool.eqb p p')
  end.

(** [x || 0] on a number: [NaN] and [0] are falsy. *)
Definition num_or_zero (x : num) : num :=
  match x with
  | NaN => Fin 0
  | Fin a => if Qeq_bool a 0 then Fin 0 else x
  | Inf _ => x
  end.

(** ** The audio element *)

(** The [<audio>] element rendered while there is a current track:
    output volume, playback position, duration ([NaN] until metadata
    is loaded) and source. *)
Record audio_el := mkAudio {
  a_volume : Q;
  a_currentTime : Q;
  a_duration : num;
  a_src : string
}.

(** A freshly created media element: volume 1.0, position 0, unknown
    duration (HTML media element defaults). *)
Definition fresh_audio (src : string) : audio_el := mkAudio 1 0 NaN src.

Definition audio_set_volume (v : Q) (a : audio_el) : audio_el :=
  mkAudio v (a_currentTime a) (a_duration a) (a_src a).

(** Setting [src] on an existing element restarts loading: position 0 and
    unknown duration; the volume attribute is kept. *)
Definition audio_set_src (src : string) (a : audio_el) : audio_el :=
  if (src =? a_src a)%string then a else mkAudio (a_volume a) 0 NaN src.

(** The [currentTime] setter of the audio engine: a non-finite value is
    rejected with a [TypeError]; a finite one is clamped into
    [[0, duration]] when the duration is known. *)
Definition audio_set_currentTime (v : num) (a : audio_el) : js_result audio_el :=
  match v with
  | Fin x =>
      let pos := match a_duration a with
                 | Fin d => Qmax 0 (Qmin x d)
                 | _ => Qmax 0 x
                 end in
      Ok (mkAudio (a_volume a) pos (a_duration a) (a_src a))
  | _ => Throw TypeError
  end.

Inductive audio_cmd :=
| CmdPlay
| CmdPause.

(** ** Component state *)

(** The [useState] variables of [App] that the playback logic touches,
    the [audioRef] target, the commands sent to it and the [alert]s shown. *)
Record player := mkPlayer {
  tracks : list Track;
  currentTrack : option Track;
  isPlaying : bool;
  progress : num;
  volume : Q;
  isMuted : bool;
  recentlyPlayed : list (option Track);
  loading : bool;
  notices : list string;
  audio : option audio_el;
  audio_log : list audio_cmd
}.

(** Initial state after mount (empty history from storage, no track). *)
Definition initial_player : player :=
  mkPlayer [] None false (Fin 0) (7 # 10) false [] false [] None [].

Definition set_session (st : player) (cur : option Track) (playing : bool)
    (recent : list (option Track)) : player :=
  mkPlayer (tracks st) cur playing (progress st) (volume st) (isMuted st)
           recent (loading st) (notices st) (audio st) (audio_log st).

Definition set_tracks (st : player) (ts : list Track) : player :=
  mkPlayer ts (currentTrack st) (isPlaying st) (progress st) (volume st) (isMuted st)
           (recentlyPlayed st) (loading st) (notices st) (audio st) (audio_log st).

Definition set_loading (st : player) (b : bool) : player :=
  mkPlayer (tracks st) (currentTrack st) (isPlaying st) (progress st) (volume st)
           (isMuted st) (recentlyPlayed st) b (notices st) (audio st) (audio_log st).

Definition add_notice (st : player) (msg : string) : player :=
  mkPlayer (tracks st) (currentTrack st) (isPlaying st) (progress st) (volume st)
           (isMuted st) (recentlyPlayed st) (loading st) (msg :: notices st)
           (audio st) (audio_log st).

Definition set_progress (st : player) (p : num) : player :=
  mkPlayer (tracks st) (currentTrack st) (isPlaying st) p (volume st) (isMuted st)
           (recentlyPlayed st) (loading st) (notices st) (audio st) (audio_log st).

Definition set_volume_state (st : player) (v : Q) : player :=
  mkPlayer (tracks st) (currentTrack st) (isPlaying st) (progress st) v (isMuted st)
           (recentlyPlayed st) (loading st) (notices st) (audio st) (audio_log st).

Definition set_muted_state (st : player) (b : bool) : player :=
  mkPlayer (tracks st) (currentTrack st) (isPlaying st) (progress st) (volume st) b
           (recentlyPlayed st) (loading st) (notices st) (audio st) (audio_log st).

Definition set_audio (st : player) (a : option audio_el) : player :=
  mkPlayer (tracks st) (currentTrack st) (isPlaying st) (progress st) (volume st)
           (isMuted st) (recentlyPlayed st) (loading st) (notices st) a (audio_log st).

Definition send_cmd (st : player) (c : audio_cmd) : player :=
  mkPlayer (tracks st) (currentTrack st) (isPlaying st) (progress st) (volume st)
           (isMuted st) (recentlyPlayed st) (loading st) (notices st) (audio st)
           (audio_log st ++ [c]).

(** The playback has ended: the position is at the known duration. *)
Definition a_ended (a : audio_el) : bool :=
  match a_duration a with
  | Fin d => Qeq_bool (a_currentTime a) d
  | _ => false
  end.

(** [play()] of the media element: on an ended element it first seeks to
    the start (HTML: if the playback has ended and the direction of
    playback is forwards, seek to the earliest possible position). *)
Definition audio_play (a : audio_el) : audio_el :=
  if a_ended a then mkAudio (a_volume a) 0 (a_duration a) (a_src a) else a.

(** [audioRef.current.play()]: the engine's effect and the command sent. *)
Definition send_play (st : player) : player :=
  send_cmd (set_audio st (option_map audio_play (audio st))) CmdPlay.

Definition set_playing (st : player) (b : bool) : player :=
  set_session st (currentTrack st) b (recentlyPlayed st).

(** ** Rendering: the audio element and the volume effect *)

(** The volume effect's dependency list [[volume, isMuted]] changed between
    two renders (React compares with [Object.is]). *)
Definition volume_deps_changed (before after : player) : bool :=
  negb (Qeq_bool (volume before) (volume after)) ||
  negb (Bool.eqb (isMuted before) (isMuted after)).

(** One render and commit after a handler moved the state from [before] to
    [after]: [{currentTrack && <audio src={currentTrack.preview} .../>}]
    creates, keeps or removes the element, then the effect
<<
    useEffect(() => {
      if (audioRef.current) audioRef.current.volume = isMuted ? 0 : volume;
    }, [volume, isMuted]);
>>
    runs iff its dependencies changed. *)
Definition commit (before after : player) : player :=
  let el := match currentTrack after with
            | Some t =>
                Some (match audio after with
                      | Some a => audio_set_src (preview t) a
                      | None => fresh_audio (preview t)
                      end)
            | None => None
            end in
  let el := if volume_deps_changed before after
            then option_map (audio_set_volume (if isMuted after then 0%Q else volume after)) el
            else el in
  set_audio after el.

(** The output volume of the audio engine, if an element exists. *)
Definition effective_volume (st : player) : option Q :=
  option_map a_volume (audio st).

(** ** [playTrack] *)

(** [setCurrentTrack(track); setIsPlaying(true); setRecentlyPlayed(...)];
    the updater runs during the next render, so its exception aborts the
    whole update. *)
Definition playTrack (st : player) (track : option Track) : js_result player :=
  recent <- recordPlay track (recentlyPlayed st) ;;
  Ok (set_session st track true recent).

(** The [setTimeout(() => { if (audioRef.current) audioRef.current.play(); }, 100)]
    of [playTrack], fired after the commit. *)
Definition play_timeout (st : player) : player :=
  match audio st with
  | Some _ => send_play st
  | None => st
  end.

(** ** [playNext] and [playPrevious] *)

(** [Array.prototype.findIndex]: [-1] when no element matches. *)
Fixpoint findIndex {A} (p : A -> bool) (l : list A) : Z :=
  match l with
  | [] => -1
  | x :: r =>
      if p x then 0
      else let i := findIndex p r in if i <? 0 then -1 else i + 1
  end.

(** [arr[i]]: [undefined] ([None]) outside the array. *)
Definition js_index {A} (l : list A) (i : Z) : option A :=
  if i <? 0 then None else nth_error l (Z.to_nat i).

(** The argument [playNext] hands to [playTrack], or [None] when it
    returns early:
<<
    if (!currentTrack || tracks.length === 0) return;
    const currentIndex = tracks.findIndex((t) => t.id === currentTrack.id);
    const nextIndex = (currentIndex + 1) % tracks.length;
    playTrack(tracks[nextIndex]);
>>
    JS [%] is the truncated remainder [Z.rem]. *)
Definition next_target (tracks : list Track) (cur : option Track) : option (option Track) :=
  match cur with
  | None => None
  | Some c =>
      if (List.length tracks =? 0)%nat then None
      else
        let currentIndex := findIndex (fun t => id t =? id c) tracks in
        let nextIndex := Z.rem (currentIndex + 1) (Z.of_nat (List.length tracks)) in
        Some (js_index tracks nextIndex)
  end.

(** The argument [playPrevious] hands to [playTrack]:
<<
    const prevIndex = currentIndex === 0 ? tracks.length - 1 : currentIndex - 1;
    playTrack(tracks[prevIndex]);
>> *)
Definition prev_target (tracks : list Track) (cur : option Track) : option (option Track) :=
  match cur with
  | None => None
  | Some c =>
      if (List.length tracks =? 0)%nat then None
      else
        let currentIndex := findIndex (fun t => id t =? id c) tracks in
        let prevIndex := if currentIndex =? 0
                         then Z.of_nat (List.length tracks) - 1
                         else currentIndex - 1 in
        Some (js_index tracks prevIndex)
  end.

Definition playNext (st : player) : js_result player :=
  match next_target (tracks st) (currentTrack st) with
  | None => Ok st
  | Some arg => playTrack st arg
  end.

Definition playPrevious (st : player) : js_result player :=
  match prev_target (tracks st) (currentTrack st) with
  | None => Ok st
  | Some arg => playTrack st arg
  end.

(** The current track after [n] successive [playNext] calls, each of which
    makes the track it selects current ([setCurrentTrack(track)]). *)
Fixpoint next_times (n : nat) (tracks : list Track) (cur : option Track) : option Track :=
  match n with
  | O => cur
  | S n' =>
      match next_target tracks cur with
      | None => cur
      | Some arg => next_times n' tracks arg
      end
  end.

(** ** [togglePlayPause] *)

(**
<<
    if (!audioRef.current || !currentTrack) return;
    if (isPlaying) audioRef.current.pause(); else audioRef.current.play();
    setIsPlaying(!isPlaying);
>> *)
Definition togglePlayPause (st : player) : player :=
  match audio st, currentTrack st with
  | Some _, Some _ =>
      let st1 := if isPlaying st then send_cmd st CmdPause else send_play st in
      set_playing st1 (negb (isPlaying st))
  | _, _ => st
  end.

(** ** [handleTimeUpdate] and [handleProgressClick] *)

(**
<<
    const percentage = (audioRef.current.currentTime / audioRef.current.duration) * 100;
    setProgress(percentage || 0);
>> *)
Definition handleTimeUpdate (st : player) : player :=
  match audio st with
  | None => st
  | Some a =>
      let percentage := num_mul (num_div (Fin (a_currentTime a)) (a_duration a)) (Fin 100) in
      set_progress st (num_or_zero percentage)
  end.

(** The click offset inside the bar and the bar width give the seek
    fraction [clickPosition / offsetWidth]:
<<
    const percentage = (clickPosition / progressBar.offsetWidth) * 100;
    const newTime = (percentage / 100) * audioRef.current.duration;
    audioRef.current.currentTime = newTime;
    setProgress(percentage);
>> *)
Definition seek_percentage (clickPosition offsetWidth : Q) : num :=
  num_mul (num_div (Fin clickPosition) (Fin offsetWidth)) (Fin 100).

Definition seek_newTime (percentage duration : num) : num :=
  num_mul (num_div percentage (Fin 100)) duration.

Definition handleProgressClick (st : player) (clickPosition offsetWidth : Q)
    : js_result player :=
  match audio st with
  | None => Ok st
  | Some a =>
      let percentage := seek_percentage clickPosition offsetWidth in
      let newTime := seek_newTime percentage (a_duration a) in
      a' <- audio_set_currentTime newTime a ;;
      Ok (set_progress (set_audio st (Some a')) percentage)
  end.

(** ** [searchMusic] *)

(** Outcome of one [axios.get]: rejected, or resolved with a body whose
    [data] field is an array of tracks ([Some]) or is not ([None]: the
    [.data.slice] access, or the [JSON.parse] of a string body, throws). *)
Inductive response :=
| RespRejected
| RespResolved (data : option (list Track)).

(** [response.data.data.slice(0, 12)] (resp. [data.data.slice(0, 12)]). *)
Definition response_tracks (r : response) : js_result (list Track) :=
  match r with
  | RespRejected => Throw AxiosError
  | RespResolved (Some l) => Ok (firstn 12 l)
  | RespResolved None => Throw TypeError
  end.

(** Characters removed by [String.prototype.trim] in the Latin-1 range. *)
Definition is_js_space (c : ascii) : bool :=
  match nat_of_ascii c with
  | 9 | 10 | 11 | 12 | 13 | 32 | 160 => true
  | _ => false
  end%nat.

(** [!query.trim()]. *)
Definition blank_query (query : string) : bool :=
  forallb is_js_space (list_ascii_of_string query).

Definition search_alert : string := "Something went wrong. Try again!".

(** [searchMusic] with the outcomes of the primary and the fallback request:
<<
    if (!query.trim()) return;
    setLoading(true);
    try { ... setTracks(response.data.data.slice(0, 12)); }
    catch (error) {
      try { ... setTracks(data.data.slice(0, 12)); }
      catch (fallbackError) { alert("Something went wrong. Try again!"); }
    } finally { setLoading(false); }
>> *)
Definition searchMusic (st : player) (query : string) (primary fallback : response) : player :=
  if blank_query query then st
  else
    let st1 := set_loading st true in
    let st2 := match response_tracks primary with
               | Ok l => set_tracks st1 l
               | Throw _ =>
                   match response_tracks fallback with
                   | Ok l => set_tracks st1 l
                   | Throw _ => add_notice st1 search_alert
                   end
               end in
    set_loading st2 false.

(** ** User events touching the audio output *)

Inductive event :=
| EvPlayTrack (t : Track)
| EvSetVolume (x : Q)
| EvSetMuted (b : bool).

(** Handler, then render and commit; for [playTrack] the delayed [play()]
    fires after the commit. *)
Definition step (st : player) (ev : event) : js_result player :=
  match ev with
  | EvPlayTrack t => st' <- playTrack st (Some t) ;; Ok (play_timeout (commit st st'))
  | EvSetVolume x => Ok (commit st (set_volume_state st x))
  | EvSetMuted b => Ok (commit st (set_muted_state st b))
  end.

Fixpoint run_events (st : player) (evs : list event) : js_result player :=
  match evs with
  | [] => Ok st
  | ev :: rest => st' <- step st ev ;; run_events st' rest
  end.

(** ** [formatTime] *)

(** JS [%] on numbers: the remainder of a truncating division. *)
Definition num_rem (x y : num) : num :=
  match x, y with
  | NaN, _ | _, NaN | Inf _, _ => NaN
  | Fin a, Inf _ => Fin a
  | Fin a, Fin b =>
      if Qeq_bool b 0 then NaN
      else let r := (a / b)%Q in
           Fin (a - b * inject_Z (Z.quot (Qnum r) (Zpos (Qden r))))%Q
  end.

(** [Math.floor]. *)
Definition num_floor (x : num) : num :=
  match x with
  | Fin q => Fin (inject_Z (Qfloor q))
  | _ => x
  end.

Definition num_falsy (x : num) : bool :=
  match x with
  | Fin q => Qeq_bool q 0
  | NaN => true
  | Inf _ => false
  end.

Definition num_isNaN (x : num) : bool :=
  match x with
  | NaN => true
  | _ => false
  end.

Definition digit_char (d : Z) : ascii := ascii_of_nat (Z.to_nat (48 + d)).

(** Decimal digits of [n >= 0], most significant first, before [acc];
    [fuel] bounds the number of divisions. *)
Fixpoint dec_digits (fuel : nat) (n : Z) (acc : list Z) : list Z :=
  match fuel with
  | O => n :: acc
  | S f => if n <? 10 then n :: acc else dec_digits f (n / 10) (n mod 10 :: acc)
  end.

Definition nonneg_to_string (n : Z) : string :=
  string_of_list_ascii (map digit_char (dec_digits (Z.to_nat n) n [])).

(** [Number.prototype.toString] on an integer value. *)
Definition z_to_string (z : Z) : string :=
  if z <? 0 then String "-" (nonneg_to_string (- z)) else nonneg_to_string z.

(** [toString] on the values [formatTime] prints: [Math.floor] results,
    so integers, [NaN] or infinities. *)
Definition num_to_string (x : num) : string :=
  match x with
  | Fin q => z_to_string (Qfloor q)
  | NaN => "NaN"
  | Inf true => "Infinity"
  | Inf false => "-Infinity"
  end.

(** [s.padStart(2, "0")]. *)
Definition padStart2 (s : string) : string :=
  match String.length s with
  | O => "00"
  | 1%nat => String "0" s
  | _ => s
  end.

(** [formatTime(seconds)]; [None] is [undefined] (as from
    [audioRef.current?.currentTime] without an element):
<<
    if (!seconds || isNaN(seconds)) return "0:00";
    const mins = Math.floor(seconds / 60);
    const secs = Math.floor(seconds % 60);
    return `${mins}:${secs.toString().padStart(2, "0")}`;
>> *)
Definition formatTime (seconds : option num) : string :=
  match seconds with
  | None => "0:00"
  | Some x =>
      if num_falsy x || num_isNaN x then "0:00"
      else
        let mins := num_floor (num_div x (Fin 60)) in
        let secs := num_floor (num_rem x (Fin 60)) in
        String.append (num_to_string mins)
          (String ":" (padStart2 (num_to_string secs)))
  end.

(** Reads an [M:SS] display back: digits, a colon, digits, nothing else. *)
Definition parse_mmss (s : string) : option (Z * Z) :=
  let '(m, r) := take_digits (list_ascii_of_string s) in
  match m, r with
  | _ :: _, c :: r' =>
      if (c =? ":")%char then
        let '(sec, r'') := take_digits r' in
        match sec, r'' with
        | _ :: _, [] => Some (digits_value m, digits_value sec)
        | _, _ => None
        end
      else None
  | _, _ => None
  end.

(** ** [fetchTrending] *)

(** The trending list after the mount-time fetch: first 10 tracks of the
    primary, else of the fallback response; on a double failure only
    [console.error] runs and the list is left as it was. *)
Definition fetchTrending (trending : list Track) (primary fallback : response) : list Track :=
  let first10 r := match r with
                   | RespResolved (Some l) => Some (firstn 10 l)
                   | _ => None
                   end in
  match first10 primary with
  | Some l => l
  | None => match first10 fallback with
            | Some l => l
            | None => trending
            end
  end.

(** ** Volume controls of the Now Playing panel *)

(** [onClick={() => setIsMuted(!isMuted)}], then render and commit. *)
Definition onMuteClick (st : player) : player :=
  commit st (set_muted_state st (negb (isMuted st))).

(** The range input:
    [onChange={(e) => { setVolume(parseFloat(e.target.value)); setIsMuted(false); }}];
    both updates are batched into one render. *)
Definition onVolumeSlider (st : player) (v : Q) : player :=
  commit st (set_muted_state (set_volume_state st v) false).

(** ** [JSON.stringify] and the save effects *)

(** A lower-case hexadecimal digit. *)
Definition hex_char (d : Z) : ascii :=
  if d <? 10 then digit_char d else ascii_of_nat (Z.to_nat (87 + d)).

(** One code unit of QuoteJSONString: the seven short escapes, [\u00XX]
    for the other control characters, the character itself otherwise. *)
Definition quote_char (c : ascii) : list ascii :=
  if (c =? ascii_of_nat 8)%char then ["\"; "b"]%char
  else if (c =? ascii_of_nat 9)%char then ["\"; "t"]%char
  else if (c =? ascii_of_nat 10)%char then ["\"; "n"]%char
  else if (c =? ascii_of_nat 12)%char then ["\"; "f"]%char
  else if (c =? ascii_of_nat 13)%char then ["\"; "r"]%char
  else if (c =? dquote)%char then ["\"; dquote]%char
  else if (c =? "\")%char then ["\"; "\"]%char
  else if (nat_of_ascii c <? 32)%nat then
    let n := Z.of_nat (nat_of_ascii c) in
    ["\"; "u"; "0"; "0"; hex_char (n / 16); hex_char (n mod 16)]%char
  else [c].

Definition quote_json_string (s : string) : list ascii :=
  dquote :: List.concat (map quote_char (list_ascii_of_string s)) ++ [dquote].

(** The serialisations of the items, separated by commas. *)
Fixpoint join_opt {A} (f : A -> option (list ascii)) (xs : list A) : option (list ascii) :=
  match xs with
  | [] => Some []
  | x :: r =>
      match f x, join_opt f r with
      | Some a, Some b => Some (a ++ match r with [] => [] | _ => ","%char :: b end)
      | _, _ => None
      end
  end.

(** [JSON.stringify] without indentation. Numbers are printed for integer
    values of magnitude below [2^53], where [Number.prototype.toString]
    writes the plain decimal integer; other numbers are outside this
    model ([None]). *)
Fixpoint json_to_chars (v : json) : option (list ascii) :=
  match v with
  | JNull => Some (list_ascii_of_string "null")
  | JBool b => Some (list_ascii_of_string (if b then "true" else "false"))
  | JNum q =>
      if (Qden q =? 1)%positive && (Z.abs (Qnum q) <? 2 ^ 53)
      then Some (list_ascii_of_string (z_to_string (Qnum q)))
      else None
  | JStr s => Some (quote_json_string s)
  | JArr xs => option_map (fun b => "["%char :: b ++ ["]"%char]) (join_opt json_to_chars xs)
  | JObj ms =>
      option_map (fun b => "{"%char :: b ++ ["}"%char])
        (join_opt (fun '(k, x) =>
                     option_map (fun a => quote_json_string k ++ ":"%char :: a) (json_to_chars x))
                  ms)
  end.

Definition JSON_stringify (v : json) : option string :=
  option_map string_of_list_ascii (json_to_chars v).

(** The save effects
<<
    localStorage.setItem("musicFavorites", JSON.stringify(favorites));
    localStorage.setItem("recentlyPlayed", JSON.stringify(recentlyPlayed));
>>
    followed, on the next start, by the matching initializer. *)
Definition save_and_reload (v : json) : option (js_result json) :=
  option_map (fun s => init_from_storage (Some s)) (JSON_stringify v).

(** Nodes of a JSON value, counting one per item separator: the fuel the
    parser needs. *)
Fixpoint jsize (v : json) : nat :=
  match v with
  | JArr xs => S (S (list_sum (map (fun x => S (jsize x)) xs)))
  | JObj ms => S (S (list_sum (map (fun '(_, x) => S (jsize x)) ms)))
  | _ => 1
  end.

(** What may follow a value inside a serialisation: the end of the text,
    a comma or a closing bracket. *)
Definition value_end (rest : list ascii) : Prop :=
  match rest with
  | [] => True
  | c :: _ => c = ","%char \/ c = "]"%char \/ c = "}"%char
  end.

(** Characters a serialised value can start with. *)
Definition first_chars : list ascii :=
  ["n"; "t"; "f"; "-"; "0"; "1"; "2"; "3"; "4"; "5"; "6"; "7"; "8"; "9"; dquote; "["; "{"]%char.

(** A member of an object as [JSON.stringify] writes it. *)
Definition member_chars (kv : string * json) : option (list ascii) :=
  let '(k, x) := kv in
  option_map (fun a => quote_json_string k ++ ":"%char :: a) (json_to_chars x).

(** A serialisation [s] of [x], followed by what may follow a value,
    is read back as [x] by [parse_value] given enough fuel. *)
Definition parses_back (x : json) : Prop :=
  forall s, json_to_chars x = Some s ->
  forall fuel rest, (jsize x <= fuel)%nat -> value_end rest ->
  parse_value fuel (s ++ rest) = Ok (x, rest).

(** A saved list of one track, as [favorites] holds it. *)
Definition sample_saved : json :=
  JArr [JObj [("id"%string, JNum 101); ("title"%string, JStr "Around the World");
              ("preview"%string, JStr "https://cdn/a.mp3")]].

(** ** Sample data *)

Definition track_a : Track := mkTrack 101 "Around the World" "https://cdn/a.mp3".
Definition track_b : Track := mkTrack 102 "One More Time" "https://cdn/b.mp3".
Definition track_c : Track := mkTrack 103 "Digital Love" "https://cdn/c.mp3".
Definition track_x : Track := mkTrack 999 "Favorite elsewhere" "https://cdn/x.mp3".

(** Result list [[a; b; c]], [b] current and playing, its audio loaded. *)
Definition sample_player : player :=
  mkPlayer [track_a; track_b; track_c] (Some track_b) true (Fin 0) (7 # 10) false
           [Some track_b] false [] (Some (mkAudio (7 # 10) 0 (Fin 30) (preview track_b))) [CmdPlay].

(** Result list [[a; b; c]] while [x], played from the favorites, is current. *)
Definition player_foreign_current : player :=
  mkPlayer [track_a; track_b; track_c] (Some track_x) true (Fin 0) (7 # 10) false
           [Some track_x] false [] (Some (mkAudio (7 # 10) 0 (Fin 30) (preview track_x))) [CmdPlay].

(** [b] as an earlier search returned it, with another preview URL. *)
Definition track_b_earlier : Track := mkTrack 102 "One More Time" "https://cdn/b-earlier.mp3".

(** Result list [[a; b; c]] while the earlier record of [b] is current. *)
Definition player_b_earlier : player :=
  mkPlayer [track_a; track_b; track_c] (Some track_b_earlier) true (Fin 0) (7 # 10) false
           [Some track_b_earlier] false []
           (Some (mkAudio (7 # 10) 0 (Fin 30) (preview track_b_earlier))) [CmdPlay].

(** [b] current, 15 s into its 30 s preview. *)
Definition player_midway : player :=
  mkPlayer [track_a; track_b; track_c] (Some track_b) true (Fin 50) (7 # 10) false
           [Some track_b] false [] (Some (mkAudio (7 # 10) 15 (Fin 30) (preview track_b))) [CmdPlay].

(** [b] current, its metadata not loaded yet. *)
Definition player_loading_audio : player :=
  mkPlayer [track_a; track_b; track_c] (Some track_b) true (Fin 0) (7 # 10) false
           [Some track_b] false [] (Some (fresh_audio (preview track_b))) [CmdPlay].

(** * Properties *)

(** ** Recently played *)

Section RecentlyPlayed.

Variable t : Track.

Let keep (u : Track) : bool := negb (id u =? id t).

Lemma js_filter_defined (l : list Track) :
  js_filter (fun v => a <- get_id v ;; b <- get_id (Some t) ;; Ok (negb (a =? b)))
            (map Some l)
  = Ok (map Some (filter keep l)).
Proof.
  induction l as [|u l IH]; simpl; [reflexivity|].
  simpl in IH. rewrite IH. unfold keep. destruct (negb (id u =? id t)); reflexivity.
Qed.

Lemma recordPlay_defined (l : list Track) :
  recordPlay (Some t) (map Some l) = Ok (map Some (firstn 10 (t :: filter keep l))).
Proof.
  unfold recordPlay. rewrite js_filter_defined. cbn [js_bind].
  change (Some t :: map Some (filter keep l)) with (map Some (t :: filter keep l)).
  rewrite firstn_map. reflexivity.
Qed.

Lemma nodup_ids_filter (l : list Track) :
  NoDup (map id l) -> NoDup (map id (filter keep l)).
Proof.
  induction l as [|u l IH]; simpl; intro H; [constructor|].
  inversion H as [|? ? Hnin Hnd]; subst.
  destruct (keep u); simpl; [|auto].
  constructor; [|auto].
  intro Hin. apply Hnin.
  apply in_map_iff in Hin as (w & Hw & Hin).
  apply filter_In in Hin as [Hin _].
  rewrite <- Hw. apply in_map. exact Hin.
Qed.

Lemma filter_keep_no_t (l : list Track) :
  ~ In (id t) (map id (filter keep l)).
Proof.
  intro Hin. apply in_map_iff in Hin as (w & Hw & Hin).
  apply filter_In in Hin as [_ Hk]. unfold keep in Hk.
  rewrite Hw, Z.eqb_refl in Hk. discriminate.
Qed.

Lemma in_firstn {A} (n : nat) (x : A) (l : list A) : In x (firstn n l) -> In x l.
Proof.
  intro H. rewrite <- (firstn_skipn n l). apply in_or_app. left. exact H.
Qed.

Lemma nodup_firstn {A} (n : nat) (l : list A) : NoDup l -> NoDup (firstn n l).
Proof.
  revert l; induction n as [|n IH]; intros [|x l] H; simpl; try constructor.
  all: inversion H as [|? ? Hnin Hnd]; subst.
  - intro Hin. apply Hnin. eapply in_firstn. exact Hin.
  - auto.
Qed.

End RecentlyPlayed.

Lemma in_recent_has_other_id (t u : Track) (prev : list Track) :
  In u (firstn 10 (t :: filter (fun w => negb (id w =? id t)) prev)) ->
  id u = id t -> u = t.
Proof.
  intros Hin Hid. apply in_firstn in Hin. destruct Hin as [->|Hin]; [reflexivity|].
  apply filter_In in Hin as [_ Hk]. rewrite Hid, Z.eqb_refl in Hk. discriminate.
Qed.

(** C1 (amended). Starting from a Recently-Played List without duplicate
    identifiers, [recordPlay t] (run inside [playTrack]) yields a list with no
    duplicate identifiers, of length at most 10, with [t] at index 0: [t]
    followed by the earlier entries whose identifier differs from [t]'s, in
    their order, cut to 10 entries. *)
Theorem recordPlay_invariant (t : Track) (prev : list Track)
    (Hnd : NoDup (map id prev)) :
  exists l,
    recordPlay (Some t) (map Some prev) = Ok (map Some l) /\
    l = firstn 10 (t :: filter (fun u => negb (id u =? id t)) prev) /\
    NoDup (map id l) /\
    (List.length l <= 10)%nat /\
    hd_error l = Some t /\
    (forall u, In u l -> id u = id t -> u = t).
Proof.
  exists (firstn 10 (t :: filter (fun u => negb (id u =? id t)) prev)).
  split; [apply recordPlay_defined|].
  split; [reflexivity|].
  split.
  { rewrite <- firstn_map. apply nodup_firstn. simpl. constructor.
    - apply filter_keep_no_t.
    - apply nodup_ids_filter. exact Hnd. }
  split; [apply firstn_le_length|].
  split; [reflexivity|].
  intros u Hin Hid. eapply in_recent_has_other_id; eassumption.
Qed.

Lemma recordPlay_invariant_witness :
  NoDup (map id [mkTrack 2 "b" "p2"; mkTrack 3 "c" "p3"]) /\
  exists l,
    recordPlay (Some (mkTrack 3 "c" "p3"))
      (map Some [mkTrack 2 "b" "p2"; mkTrack 3 "c" "p3"]) = Ok (map Some l) /\
    l = firstn 10 (mkTrack 3 "c" "p3" ::
          filter (fun u => negb (id u =? 3)) [mkTrack 2 "b" "p2"; mkTrack 3 "c" "p3"]) /\
    NoDup (map id l) /\
    (List.length l <= 10)%nat /\
    hd_error l = Some (mkTrack 3 "c" "p3") /\
    (forall u, In u l -> id u = 3 -> u = mkTrack 3 "c" "p3").
Proof.
  assert (H : NoDup (map id [mkTrack 2 "b" "p2"; mkTrack 3 "c" "p3"])).
  { simpl. constructor; [simpl; intros [H|H]; [discriminate|exact H]|].
    constructor; [simpl; tauto|constructor]. }
  split; [exact H|].
  exact (recordPlay_invariant (mkTrack 3 "c" "p3") _ H).
Defined.

(** C1 (counterexample). The guarantee needs a prior list without
    duplicates: [recordPlay] only removes entries with the played track's
    identifier, so the prior list [[a; a]] (id 5) with [t] (id 1) played
    gives [[t; a; a]], which has a duplicate identifier. *)
Lemma recordPlay_keeps_prior_duplicates :
  ~ (forall (t : Track) (prev l : list Track),
       recordPlay (Some t) (map Some prev) = Ok (map Some l) ->
       NoDup (map id l)).
Proof.
  intro H.
  pose (a := mkTrack 5 "a" "pa"). pose (t := mkTrack 1 "t" "pt").
  specialize (H t [a; a] [t; a; a] eq_refl).
  simpl in H. inversion H as [|? ? _ H2]; subst.
  inversion H2 as [|? ? Hnin _]; subst. apply Hnin. simpl. left. reflexivity.
Qed.

(** ** Favorites *)

Lemma existsb_filter {A} (p q : A -> bool) (l : list A) :
  existsb p (filter q l) = existsb (fun x => p x && q x) l.
Proof.
  induction l as [|x l IH]; simpl; [reflexivity|].
  destruct (q x); simpl; rewrite IH; destruct (p x); reflexivity.
Qed.

Lemma isFavorite_toggleFavorite (t : Track) (favs : list Track) (k : Z) :
  isFavorite (toggleFavorite t favs) k =
  if id t =? k then negb (isFavorite favs k) else isFavorite favs k.
Proof.
  unfold isFavorite, toggleFavorite.
  destruct (existsb (fun fav => id fav =? id t) favs) eqn:E.
  - rewrite existsb_filter.
    destruct (Z.eqb_spec (id t) k) as [<-|Hne].
    + rewrite E. simpl. clear E.
      induction favs as [|x favs IH]; simpl; [reflexivity|].
      rewrite IH. destruct (id x =? id t); reflexivity.
    + clear E. induction favs as [|x favs IH]; simpl; [reflexivity|].
      rewrite IH. destruct (Z.eqb_spec (id x) k) as [Hx|Hx]; simpl; [|reflexivity].
      destruct (Z.eqb_spec (id x) (id t)); [congruence|reflexivity].
  - rewrite existsb_app. simpl.
    destruct (Z.eqb_spec (id t) k) as [<-|Hne].
    + rewrite E. reflexivity.
    + rewrite orb_false_r. reflexivity.
Qed.

Lemma run_toggles_parity (calls start : list Track) (k : Z) :
  isFavorite (run_toggles calls start) k =
  xorb (isFavorite start k) (Nat.odd (calls_with_id calls k)).
Proof.
  revert start; induction calls as [|c calls IH]; intro start.
  - simpl. rewrite xorb_false_r. reflexivity.
  - unfold run_toggles, calls_with_id in *. simpl.
    rewrite IH, isFavorite_toggleFavorite.
    destruct (id c =? k); simpl; [|reflexivity].
    rewrite Nat.odd_succ, <- Nat.negb_odd.
    destruct (isFavorite start k), (Nat.odd _); reflexivity.
Qed.

(** C2. Starting from the empty Favorites Set, after any sequence of
    [toggleFavorite] calls the set holds a track with [t]'s identifier iff
    the calls made with that identifier are odd in number. *)
Theorem favorites_toggle_parity (calls : list Track) (t : Track) :
  isFavorite (run_toggles calls []) (id t) = Nat.odd (calls_with_id calls (id t)).
Proof.
  rewrite run_toggles_parity. reflexivity.
Qed.

(** ** Loading the persisted collections *)

Example JSON_parse_stored_list :
  JSON_parse "[1, 2.5e1, -0.5E-1, true, null, {}]"
  = Ok (JArr [JNum 1; JNum (250 # 10); JNum (-5 # 100); JBool true; JNull; JObj []]).
Proof. vm_compute. reflexivity. Qed.

Example JSON_parse_trailing_comma : JSON_parse "[1,]" = Throw SyntaxError.
Proof. vm_compute. reflexivity. Qed.

(** C3 (amended). An absent key or an empty stored string initializes the
    collection to the empty array; any other stored string is handed to
    [JSON.parse] unguarded, so the initializer returns whatever [JSON.parse]
    returns, including a thrown [SyntaxError] on malformed data. *)
Theorem storage_init_unguarded (s : string) (Hs : s <> EmptyString) :
  init_from_storage (Some s) = JSON_parse s /\
  init_from_storage None = Ok (JArr []) /\
  init_from_storage (Some EmptyString) = Ok (JArr []).
Proof.
  split; [|split; reflexivity].
  simpl. destruct (String.eqb_spec s EmptyString) as [E|_]; [contradiction|reflexivity].
Qed.

Lemma storage_init_unguarded_witness :
  "[1]"%string <> EmptyString /\
  init_from_storage (Some "[1]"%string) = JSON_parse "[1]"%string /\
  init_from_storage None = Ok (JArr []) /\
  init_from_storage (Some EmptyString) = Ok (JArr []).
Proof.
  assert (H : "[1]"%string <> EmptyString) by discriminate.
  split; [exact H|]. exact (storage_init_unguarded "[1]"%string H).
Defined.

(** C3 (counterexample). Malformed stored data does not degrade to the
    empty collection: [JSON.parse] throws out of the initializer. *)
Lemma storage_init_malformed_throws :
  init_from_storage (Some "[{"%string) = Throw SyntaxError /\
  ~ (forall saved, exists v, init_from_storage saved = Ok v).
Proof.
  assert (E : init_from_storage (Some "[{"%string) = Throw SyntaxError)
    by (vm_compute; reflexivity).
  split; [exact E|].
  intro H. destruct (H (Some "[{"%string)) as [v Hv]. rewrite E in Hv. discriminate.
Qed.

(** ** Circular traversal *)

Lemma findIndex_position (l : list Track) (i : nat) (c : Track) :
  NoDup (map id l) ->
  nth_error l i = Some c -> findIndex (fun t => id t =? id c) l = Z.of_nat i.
Proof.
  revert i; induction l as [|x r IH]; intros [|i] Hnd Hi; simpl in Hi; try discriminate.
  - injection Hi as ->. simpl. rewrite Z.eqb_refl. reflexivity.
  - inversion Hnd as [|? ? Hnin Hr]; subst. simpl.
    assert (Hx : (id x =? id c) = false).
    { apply Z.eqb_neq. intro E. apply Hnin. rewrite E.
      apply in_map. eapply nth_error_In. exact Hi. }
    rewrite Hx, (IH i Hr Hi).
    destruct (Z.ltb_spec (Z.of_nat i) 0); [lia|]. lia.
Qed.

Section Traversal.

Variable l : list Track.
Hypothesis Hnd : NoDup (map id l).

Lemma next_target_position (i : nat) (c : Track) :
  nth_error l i = Some c ->
  next_target l (Some c) = Some (nth_error l ((i + 1) mod List.length l)).
Proof.
  intro Hi. assert (Hlt : (i < List.length l)%nat)
    by (apply nth_error_Some; rewrite Hi; discriminate).
  unfold next_target.
  destruct (Nat.eqb_spec (List.length l) 0) as [E|_]; [lia|].
  rewrite (findIndex_position l i c Hnd Hi).
  rewrite Z.rem_mod_nonneg by lia.
  replace (Z.of_nat i + 1) with (Z.of_nat (i + 1)) by lia.
  rewrite <- Nat2Z.inj_mod. unfold js_index.
  destruct (Z.ltb_spec (Z.of_nat ((i + 1) mod List.length l)) 0); [lia|].
  rewrite Nat2Z.id. reflexivity.
Qed.

Lemma prev_target_position (i : nat) (c : Track) :
  nth_error l i = Some c ->
  prev_target l (Some c) =
  Some (nth_error l (if (i =? 0)%nat then List.length l - 1 else i - 1)).
Proof.
  intro Hi. assert (Hlt : (i < List.length l)%nat)
    by (apply nth_error_Some; rewrite Hi; discriminate).
  unfold prev_target.
  destruct (Nat.eqb_spec (List.length l) 0) as [E|_]; [lia|].
  rewrite (findIndex_position l i c Hnd Hi). unfold js_index.
  destruct (Nat.eqb_spec i 0) as [->|Hne]; simpl.
  - destruct (Z.ltb_spec (Z.of_nat (List.length l) - 1) 0); [lia|].
    f_equal. f_equal. lia.
  - destruct (Z.eqb_spec (Z.of_nat i) 0); [lia|].
    destruct (Z.ltb_spec (Z.of_nat i - 1) 0); [lia|].
    f_equal. f_equal. lia.
Qed.

Lemma next_times_position (k i : nat) (c : Track) :
  nth_error l i = Some c ->
  next_times k l (Some c) = nth_error l ((i + k) mod List.length l).
Proof.
  revert i c; induction k as [|k IH]; intros i c Hi;
    assert (Hlt : (i < List.length l)%nat)
      by (apply nth_error_Some; rewrite Hi; discriminate).
  - simpl. rewrite Nat.add_0_r, Nat.mod_small by exact Hlt. symmetry. exact Hi.
  - cbn [next_times]. rewrite (next_target_position i c Hi).
    assert (Hj : ((i + 1) mod List.length l < List.length l)%nat)
      by (apply Nat.mod_upper_bound; lia).
    destruct (nth_error l ((i + 1) mod List.length l)) as [c'|] eqn:Ec'.
    + rewrite (IH _ c' Ec'). f_equal.
      rewrite Nat.Div0.add_mod_idemp_l. f_equal. lia.
    + apply nth_error_None in Ec'. lia.
Qed.

End Traversal.

Lemma playTrack_current (st st' : player) (arg : option Track) :
  playTrack st arg = Ok st' -> currentTrack st' = arg /\ tracks st' = tracks st.
Proof.
  unfold playTrack. destruct (recordPlay arg (recentlyPlayed st)); simpl;
    intro H; inversion H; subst; split; reflexivity.
Qed.

(** C4. With distinct identifiers in the result list and a current track
    [c] whose identifier is that of the entry [c0] at index [i] (the same
    record, or another one such as a copy from the history, the favorites
    or an earlier search), [playNext] plays index [(i+1) mod length],
    [playPrevious] plays index [length-1] when [i = 0] and [i-1] otherwise,
    and [length] successive [playNext] calls (each making its selection
    current, see [playTrack_current]) come back to the track at index [i]. *)
Theorem next_previous_circular (st : player) (i : nat) (c c0 : Track)
    (Hnd : NoDup (map id (tracks st)))
    (Hi : nth_error (tracks st) i = Some c0)
    (Hid : id c = id c0)
    (Hcur : currentTrack st = Some c) :
  playNext st = playTrack st (nth_error (tracks st) ((i + 1) mod List.length (tracks st))) /\
  playPrevious st =
    playTrack st (nth_error (tracks st)
                    (if (i =? 0)%nat then List.length (tracks st) - 1 else i - 1)) /\
  next_times (List.length (tracks st)) (tracks st) (Some c) = Some c0.
Proof.
  assert (Hlt : (i < List.length (tracks st))%nat)
    by (apply nth_error_Some; rewrite Hi; discriminate).
  assert (Hn : next_target (tracks st) (Some c) = next_target (tracks st) (Some c0))
    by (unfold next_target; rewrite Hid; reflexivity).
  assert (Hp : prev_target (tracks st) (Some c) = prev_target (tracks st) (Some c0))
    by (unfold prev_target; rewrite Hid; reflexivity).
  split; [|split].
  - unfold playNext. rewrite Hcur, Hn, (next_target_position _ Hnd i c0 Hi). reflexivity.
  - unfold playPrevious. rewrite Hcur, Hp, (prev_target_position _ Hnd i c0 Hi). reflexivity.
  - assert (Ht : forall n, next_times (S n) (tracks st) (Some c) =
                           next_times (S n) (tracks st) (Some c0))
      by (intro n; cbn [next_times]; rewrite Hn, (next_target_position _ Hnd i c0 Hi);
          reflexivity).
    replace (next_times (List.length (tracks st)) (tracks st) (Some c))
      with (next_times (S (List.length (tracks st) - 1)) (tracks st) (Some c))
      by (f_equal; lia).
    rewrite Ht.
    replace (S (List.length (tracks st) - 1)) with (List.length (tracks st)) by lia.
    rewrite (next_times_position _ Hnd _ i c0 Hi).
    replace (i + List.length (tracks st))%nat with (i + 1 * List.length (tracks st))%nat by lia.
    rewrite Nat.Div0.mod_add, Nat.mod_small by exact Hlt. exact Hi.
Qed.

Lemma next_previous_circular_witness :
  playNext player_b_earlier = playTrack player_b_earlier (Some track_c) /\
  playPrevious player_b_earlier = playTrack player_b_earlier (Some track_a) /\
  next_times 3 [track_a; track_b; track_c] (Some track_b_earlier) = Some track_b.
Proof.
  assert (Hnd : NoDup (map id (tracks player_b_earlier))).
  { simpl. repeat constructor; simpl; intuition discriminate. }
  exact (next_previous_circular player_b_earlier 1 track_b_earlier track_b
           Hnd eq_refl eq_refl eq_refl).
Defined.

(** ** Current track outside the result list *)

Lemma findIndex_absent (l : list Track) (c : Track) :
  ~ In (id c) (map id l) -> findIndex (fun t => id t =? id c) l = -1.
Proof.
  induction l as [|x r IH]; simpl; intro Hn; [reflexivity|].
  destruct (Z.eqb_spec (id x) (id c)) as [E|_]; [tauto|].
  rewrite IH by tauto. reflexivity.
Qed.

(** C5 (amended). When the current track's identifier is not in the
    non-empty result list, [findIndex] gives [-1] and [playNext] plays the
    track at index [0], i.e. [(−1 + 1) mod length]. *)
Theorem next_when_current_absent (st : player) (x : Track) (rest : list Track) (c : Track)
    (Hts : tracks st = x :: rest)
    (Hcur : currentTrack st = Some c)
    (Hnot : ~ In (id c) (map id (tracks st))) :
  findIndex (fun t => id t =? id c) (tracks st) = -1 /\
  next_target (tracks st) (Some c) = Some (Some x) /\
  playNext st = playTrack st (Some x).
Proof.
  assert (Hf : findIndex (fun t => id t =? id c) (tracks st) = -1)
    by (apply findIndex_absent; exact Hnot).
  assert (Hn : next_target (tracks st) (Some c) = Some (Some x)).
  { unfold next_target. rewrite Hf, Hts. simpl. reflexivity. }
  split; [exact Hf|]. split; [exact Hn|].
  unfold playNext. rewrite Hcur, Hn. reflexivity.
Qed.

Lemma next_when_current_absent_witness :
  findIndex (fun t => id t =? id track_x) [track_a; track_b; track_c] = -1 /\
  next_target [track_a; track_b; track_c] (Some track_x) = Some (Some track_a) /\
  playNext player_foreign_current = playTrack player_foreign_current (Some track_a).
Proof.
  apply (next_when_current_absent player_foreign_current track_a [track_b; track_c] track_x
           eq_refl eq_refl).
  simpl. intuition discriminate.
Defined.

(** C5 (counterexample). With [x] current and outside [[a; b; c]],
    [playNext] plays [a], while a current track at index 0 would lead to
    [b]; and [playPrevious] computes index [-2], passes [undefined] to
    [playTrack], whose history updater then throws reading [.id]. *)
Lemma absent_current_not_index0 :
  next_target [track_a; track_b; track_c] (Some track_x) = Some (Some track_a) /\
  next_target [track_a; track_b; track_c] (Some track_a) = Some (Some track_b) /\
  track_a <> track_b /\
  prev_target [track_a; track_b; track_c] (Some track_x) = Some None /\
  playPrevious player_foreign_current = Throw TypeError.
Proof.
  split; [reflexivity|]. split; [reflexivity|].
  split; [discriminate|]. split; reflexivity.
Qed.

(** ** Play/pause without a track *)

(** C10. Without a current track or without an audio element,
    [togglePlayPause] returns at once: no state change, no command. *)
Theorem togglePlayPause_idle (st : player)
    (Hidle : currentTrack st = None \/ audio st = None) :
  togglePlayPause st = st.
Proof.
  unfold togglePlayPause.
  destruct Hidle as [H|H]; rewrite H; [destruct (audio st)|]; reflexivity.
Qed.

Lemma togglePlayPause_idle_witness :
  togglePlayPause initial_player = initial_player.
Proof.
  apply togglePlayPause_idle. left. reflexivity.
Defined.

(** ** Search failure *)

(** C8. When both the primary and the fallback request fail, the result
    list is left as it was and, for a non-blank query, the alert is shown
    (a blank query returns before any request). *)
Theorem search_failure_keeps_results (st : player) (query : string)
    (primary fallback : response)
    (Hp : exists e, response_tracks primary = Throw e)
    (Hf : exists e, response_tracks fallback = Throw e) :
  tracks (searchMusic st query primary fallback) = tracks st /\
  (blank_query query = false ->
   notices (searchMusic st query primary fallback) = search_alert :: notices st).
Proof.
  destruct Hp as [e1 Hp], Hf as [e2 Hf].
  unfold searchMusic. destruct (blank_query query).
  - split; [reflexivity|discriminate].
  - rewrite Hp, Hf. split; reflexivity.
Qed.

Lemma search_failure_keeps_results_witness :
  tracks (searchMusic sample_player "daft punk" RespRejected (RespResolved None))
    = tracks sample_player /\
  (blank_query "daft punk" = false ->
   notices (searchMusic sample_player "daft punk" RespRejected (RespResolved None))
     = search_alert :: notices sample_player).
Proof.
  apply search_failure_keeps_results.
  - exists AxiosError. reflexivity.
  - exists TypeError. reflexivity.
Defined.

(** ** Progress reported on time updates *)

(** C9 (amended). With an audio element, an unknown ([NaN]) or infinite
    duration reports progress [0], never [NaN]; a known non-zero duration
    reports [currentTime / duration * 100], a percentage. *)
Theorem timeUpdate_progress (st : player) (a : audio_el) (Ha : audio st = Some a) :
  (a_duration a = NaN -> progress (handleTimeUpdate st) = Fin 0) /\
  (a_duration a = Inf true -> progress (handleTimeUpdate st) = Fin 0) /\
  (forall d, a_duration a = Fin d -> ~ d == 0 ->
     exists q, progress (handleTimeUpdate st) = Fin q /\ q == a_currentTime a / d * 100).
Proof.
  unfold handleTimeUpdate. rewrite Ha.
  split; [|split].
  - intro Hd. rewrite Hd. reflexivity.
  - intro Hd. rewrite Hd. simpl.
    reflexivity.
  - intros d Hd Hd0. rewrite Hd. simpl.
    destruct (Qeq_bool d 0) eqn:E; [apply Qeq_bool_eq in E; contradiction|].
    simpl. destruct (Qeq_bool (a_currentTime a / d * 100) 0) eqn:E0; simpl.
    + exists 0%Q. split; [reflexivity|]. apply Qeq_bool_eq in E0. rewrite E0. reflexivity.
    + exists (a_currentTime a / d * 100)%Q. split; reflexivity.
Qed.

Lemma timeUpdate_progress_witness :
  (NaN = NaN -> progress (handleTimeUpdate player_loading_audio) = Fin 0) /\
  (NaN = Inf true -> progress (handleTimeUpdate player_loading_audio) = Fin 0) /\
  (forall d, NaN = Fin d -> ~ d == 0 ->
     exists q, progress (handleTimeUpdate player_loading_audio) = Fin q /\ q == 0 / d * 100).
Proof.
  exact (timeUpdate_progress player_loading_audio (fresh_audio (preview track_b)) eq_refl).
Defined.

(** C9 (counterexample). At 15 s of 30 s the reported progress is 50,
    a percentage, not the fraction 1/2. *)
Lemma timeUpdate_reports_percentage :
  exists q, progress (handleTimeUpdate player_midway) = Fin q /\ q == 50 /\ ~ q == 1 # 2.
Proof.
  eexists. split; [vm_compute; reflexivity|].
  split; [reflexivity|]. vm_compute. discriminate.
Qed.

(** ** Seeking *)

Lemma num_mul_NaN_r (x : num) : num_mul x NaN = NaN.
Proof. destruct x; reflexivity. Qed.

Lemma clamp_scale (f d t : Q) :
  (0 <= d)%Q -> t == f * d -> Qmax 0 (Qmin t d) == Qmax 0 (Qmin f 1) * d.
Proof.
  intros Hd Ht. rewrite Ht.
  destruct (Qlt_le_dec f 0) as [Hf|Hf].
  - rewrite (Q.min_l f 1) by lra. rewrite (Q.max_l 0 f) by lra.
    assert (f * d <= 0)%Q by nra.
    rewrite (Q.min_l (f * d) d) by lra. rewrite (Q.max_l 0 (f * d)) by lra. lra.
  - destruct (Qlt_le_dec 1 f) as [Hf1|Hf1].
    + rewrite (Q.min_r f 1) by lra. rewrite (Q.max_r 0 1) by lra.
      assert (d <= f * d)%Q by nra.
      rewrite (Q.min_r (f * d) d) by lra. rewrite (Q.max_r 0 d) by lra. lra.
    + rewrite (Q.min_l f 1) by lra. rewrite (Q.max_r 0 f) by lra.
      assert (f * d <= d)%Q by nra. assert (0 <= f * d)%Q by nra.
      rewrite (Q.min_l (f * d) d) by lra. rewrite (Q.max_r 0 (f * d)) by lra. lra.
Qed.

(** C7. A click on the progress bar seeks to the fraction [f =
    clickPosition / offsetWidth]. With a known duration [d] the handler
    writes [f * d] to [currentTime] and the audio engine clamps it, so the
    playback position becomes [clamp(f, 0, 1) * d] (for [f = 1.5] the end,
    for [f = -0.5] the start). With no audio element (no current track)
    the click is a no-op. With an unknown duration the written time is
    [NaN], which the engine rejects with a [TypeError] before any state
    update, so nothing changes. *)
Theorem seek_behaviour (st : player) (a : audio_el) (clickPosition offsetWidth d : Q)
    (Ha : audio st = Some a) (Hd : a_duration a = Fin d) (Hw : ~ offsetWidth == 0) :
  (exists st' t,
     handleProgressClick st clickPosition offsetWidth = Ok st' /\
     progress st' = Fin (clickPosition / offsetWidth * 100) /\
     seek_newTime (seek_percentage clickPosition offsetWidth) (a_duration a) = Fin t /\
     t == clickPosition / offsetWidth * d /\
     option_map a_currentTime (audio st') = Some (Qmax 0 (Qmin t d)) /\
     ((0 <= d)%Q -> Qmax 0 (Qmin t d) == Qmax 0 (Qmin (clickPosition / offsetWidth) 1) * d)) /\
  (forall s cp w, audio s = None -> handleProgressClick s cp w = Ok s) /\
  (forall s b cp w, audio s = Some b -> a_duration b = NaN ->
     handleProgressClick s cp w = Throw TypeError).
Proof.
  split; [|split].
  - assert (Hp : seek_percentage clickPosition offsetWidth
                 = Fin (clickPosition / offsetWidth * 100)).
    { unfold seek_percentage. simpl.
      destruct (Qeq_bool offsetWidth 0) eqn:E; [apply Qeq_bool_eq in E; contradiction|].
      reflexivity. }
    assert (Hn : seek_newTime (seek_percentage clickPosition offsetWidth) (a_duration a)
                 = Fin (clickPosition / offsetWidth * 100 / 100 * d)).
    { unfold seek_newTime. rewrite Hp, Hd. reflexivity. }
    assert (Ht : clickPosition / offsetWidth * 100 / 100 * d == clickPosition / offsetWidth * d)
      by (field; exact Hw).
    exists (set_progress (set_audio st (Some (mkAudio (a_volume a)
              (Qmax 0 (Qmin (clickPosition / offsetWidth * 100 / 100 * d) d))
              (a_duration a) (a_src a))))
              (Fin (clickPosition / offsetWidth * 100))).
    exists (clickPosition / offsetWidth * 100 / 100 * d)%Q.
    split; [|split; [reflexivity|split; [exact Hn|split; [exact Ht|split]]]].
    + unfold handleProgressClick. rewrite Ha, Hn, Hp. simpl. rewrite Hd. reflexivity.
    + reflexivity.
    + intro Hd0. apply clamp_scale; [exact Hd0|exact Ht].
  - intros s cp w Hs. unfold handleProgressClick. rewrite Hs. reflexivity.
  - intros s b cp w Hs Hb. unfold handleProgressClick. rewrite Hs, Hb.
    unfold seek_newTime. rewrite num_mul_NaN_r. reflexivity.
Qed.

Lemma seek_behaviour_witness :
  (exists st' t,
     handleProgressClick player_midway 100 200 = Ok st' /\
     progress st' = Fin (100 / 200 * 100) /\
     seek_newTime (seek_percentage 100 200) (Fin 30) = Fin t /\
     t == 100 / 200 * 30 /\
     option_map a_currentTime (audio st') = Some (Qmax 0 (Qmin t 30)) /\
     ((0 <= 30)%Q -> Qmax 0 (Qmin t 30) == Qmax 0 (Qmin (100 / 200) 1) * 30)) /\
  (forall s cp w, audio s = None -> handleProgressClick s cp w = Ok s) /\
  (forall s b cp w, audio s = Some b -> a_duration b = NaN ->
     handleProgressClick s cp w = Throw TypeError).
Proof.
  refine (seek_behaviour player_midway _ 100 200 30 eq_refl eq_refl _).
  vm_compute. discriminate.
Defined.

(** ** Effective output volume *)

Lemma commit_effect (s s1 : player) :
  currentTrack s1 <> None -> volume_deps_changed s s1 = true ->
  effective_volume (commit s s1) = Some (if isMuted s1 then 0%Q else volume s1).
Proof.
  intros Hc Hch. unfold commit, effective_volume. rewrite Hch.
  destruct (currentTrack s1) as [t|]; [|contradiction].
  destruct (audio s1); reflexivity.
Qed.

Lemma commit_fields (s s1 : player) :
  currentTrack (commit s s1) = currentTrack s1 /\
  volume (commit s s1) = volume s1 /\ isMuted (commit s s1) = isMuted s1.
Proof. repeat split. Qed.

Lemma muted_change (s : player) (b : bool) :
  isMuted s <> b -> volume_deps_changed s (set_muted_state s b) = true.
Proof.
  intro H. unfold volume_deps_changed. simpl.
  destruct (isMuted s), b; simpl; try contradiction; apply orb_true_r.
Qed.

(** C6 (amended). Every change of [volume] or [isMuted] while a track is
    current sets the engine's output volume to [isMuted ? 0 : volume]; in
    particular [setMuted(true); setVolume(x); setMuted(false)] ends at
    output volume [x]. When the element is first created for a track,
    nothing re-applies the volume: it starts at the engine default 1.0. *)
Theorem volume_effect (st : player) (x : Q) (Hc : currentTrack st <> None) :
  (exists st',
     run_events st [EvSetMuted true; EvSetVolume x; EvSetMuted false] = Ok st' /\
     effective_volume st' = Some x) /\
  (forall ev s s', step s ev = Ok s' -> currentTrack s' <> None ->
     volume_deps_changed s s' = true ->
     effective_volume s' = Some (if isMuted s' then 0%Q else volume s')) /\
  (forall s t s', currentTrack s = None -> audio s = None ->
     step s (EvPlayTrack t) = Ok s' -> effective_volume s' = Some 1%Q).
Proof.
  split; [|split].
  - set (s1 := commit st (set_muted_state st true)).
    set (s2 := commit s1 (set_volume_state s1 x)).
    exists (commit s2 (set_muted_state s2 false)).
    split; [reflexivity|].
    assert (Hm2 : isMuted s2 = true) by reflexivity.
    assert (Hc2 : currentTrack s2 <> None) by exact Hc.
    rewrite commit_effect.
    + reflexivity.
    + exact Hc2.
    + apply muted_change. rewrite Hm2. discriminate.
  - intros [t|y|b] s s' Hstep Hc' Hch; simpl in Hstep.
    + unfold playTrack in Hstep.
      destruct (recordPlay (Some t) (recentlyPlayed s)) as [r|e]; simpl in Hstep;
        [|discriminate].
      injection Hstep as <-. exfalso.
      unfold volume_deps_changed in Hch.
      assert (Hv : volume (play_timeout (commit s (set_session s (Some t) true r))) = volume s)
        by (unfold play_timeout; destruct (audio _); reflexivity).
      assert (Hm : isMuted (play_timeout (commit s (set_session s (Some t) true r))) = isMuted s)
        by (unfold play_timeout; destruct (audio _); reflexivity).
      rewrite Hv, Hm, Qeq_bool_refl, eqb_reflx in Hch. discriminate.
    + injection Hstep as <-.
      destruct (commit_fields s (set_volume_state s y)) as (E1 & E2 & E3).
      unfold volume_deps_changed in Hch. rewrite E1 in Hc'. rewrite E2, E3 in Hch |- *.
      apply commit_effect; assumption.
    + injection Hstep as <-.
      destruct (commit_fields s (set_muted_state s b)) as (E1 & E2 & E3).
      unfold volume_deps_changed in Hch. rewrite E1 in Hc'. rewrite E2, E3 in Hch |- *.
      apply commit_effect; assumption.
  - intros s t s' Hc0 Ha0 Hstep. simpl in Hstep. unfold playTrack in Hstep.
    destruct (recordPlay (Some t) (recentlyPlayed s)) as [r|e]; simpl in Hstep;
      [|discriminate].
    injection Hstep as <-.
    unfold commit, volume_deps_changed. simpl.
    rewrite Ha0, Qeq_bool_refl, eqb_reflx. simpl. reflexivity.
Qed.

Lemma volume_effect_witness :
  (exists st',
     run_events sample_player [EvSetMuted true; EvSetVolume (1 # 2); EvSetMuted false] = Ok st' /\
     effective_volume st' = Some (1 # 2)) /\
  (forall ev s s', step s ev = Ok s' -> currentTrack s' <> None ->
     volume_deps_changed s s' = true ->
     effective_volume s' = Some (if isMuted s' then 0%Q else volume s')) /\
  (forall s t s', currentTrack s = None -> audio s = None ->
     step s (EvPlayTrack t) = Ok s' -> effective_volume s' = Some 1%Q).
Proof.
  apply (volume_effect sample_player (1 # 2)). discriminate.
Defined.

(** C6 (counterexample). From the initial state (volume 0.7, not muted),
    playing a track creates the audio element at the engine default 1.0,
    and the effect does not run because [volume] and [isMuted] did not
    change: the output volume is 1.0, not 0.7. *)
Lemma first_play_ignores_volume :
  exists s',
    step initial_player (EvPlayTrack track_a) = Ok s' /\
    effective_volume s' = Some 1%Q /\ volume s' = 7 # 10 /\ isMuted s' = false /\
    ~ (1 == 7 # 10)%Q.
Proof.
  eexists. split; [reflexivity|].
  split; [reflexivity|]. split; [reflexivity|]. split; [reflexivity|].
  vm_compute. discriminate.
Qed.

(** * Further properties of App.jsx *)

(** ** [formatTime] *)

Lemma list_ascii_of_string_append (a b : string) :
  list_ascii_of_string (String.append a b) = list_ascii_of_string a ++ list_ascii_of_string b.
Proof. induction a as [|c a IH]; simpl; [reflexivity|]. rewrite IH. reflexivity. Qed.

Lemma string_length_append (a b : string) :
  String.length (String.append a b) = (String.length a + String.length b)%nat.
Proof. induction a as [|c a IH]; simpl; [reflexivity|]. rewrite IH. reflexivity. Qed.

Lemma digit_val_char (d : Z) : 0 <= d < 10 -> digit_val (digit_char d) = Some d.
Proof.
  intro H.
  assert (E : d = 0 \/ d = 1 \/ d = 2 \/ d = 3 \/ d = 4 \/ d = 5 \/ d = 6 \/ d = 7 \/ d = 8 \/ d = 9)
    by lia.
  repeat destruct E as [->|E]; try reflexivity. subst. reflexivity.
Qed.

Lemma dec_digits_spec (fuel : nat) (n : Z) (acc : list Z) :
  0 <= n <= Z.of_nat fuel ->
  exists ds, dec_digits fuel n acc = ds ++ acc /\ ds <> [] /\
             Forall (fun d => 0 <= d < 10) ds /\ digits_value ds = n.
Proof.
  revert n acc; induction fuel as [|f IH]; intros n acc Hn.
  - exists [n]. simpl in Hn. split; [reflexivity|]. split; [discriminate|].
    split; [constructor; [lia|constructor]|]. unfold digits_value. simpl. lia.
  - cbn [dec_digits]. destruct (Z.ltb_spec n 10) as [Hlt|Hge].
    + exists [n]. split; [reflexivity|]. split; [discriminate|].
      split; [constructor; [lia|constructor]|]. unfold digits_value. simpl. lia.
    + assert (Hq : 0 <= n / 10 <= Z.of_nat f).
      { split; [apply Z.div_pos; lia|].
        assert (n / 10 <= n - 9) by (apply Z.div_le_upper_bound; lia). lia. }
      destruct (IH (n / 10) (n mod 10 :: acc) Hq) as (ds & E & Hne & Hall & Hv).
      exists (ds ++ [n mod 10]). rewrite <- app_assoc. split; [exact E|].
      split; [destruct ds; discriminate|].
      split.
      * apply Forall_app. split; [exact Hall|]. constructor; [|constructor].
        apply Z.mod_pos_bound. lia.
      * unfold digits_value in *. rewrite fold_left_app, Hv. cbn [fold_left].
        pose proof (Z.div_mod n 10). lia.
Qed.

Lemma take_digits_chars (ds : list Z) (r : list ascii) :
  Forall (fun d => 0 <= d < 10) ds ->
  match r with c :: _ => digit_val c = None | [] => True end ->
  take_digits (map digit_char ds ++ r) = (ds, r).
Proof.
  intros Hall Hr. induction Hall as [|d ds Hd _ IH]; cbn [map app].
  - destruct r as [|c r]; [reflexivity|]. cbn [take_digits]. rewrite Hr. reflexivity.
  - cbn [take_digits]. rewrite digit_val_char by exact Hd. rewrite IH. reflexivity.
Qed.

Lemma nonneg_to_string_chars (n : Z) :
  0 <= n ->
  exists ds, list_ascii_of_string (nonneg_to_string n) = map digit_char ds /\
             ds <> [] /\ Forall (fun d => 0 <= d < 10) ds /\ digits_value ds = n.
Proof.
  intro Hn. destruct (dec_digits_spec (Z.to_nat n) n [] ltac:(lia)) as (ds & E & H1 & H2 & H3).
  exists ds. unfold nonneg_to_string. rewrite E, app_nil_r, list_ascii_of_string_of_list_ascii.
  auto.
Qed.

(** Every seconds field [0..59] prints as two digits that read back. *)
Lemma secs_field (k : Z) :
  0 <= k < 60 ->
  String.length (padStart2 (z_to_string k)) = 2%nat /\
  exists ds, take_digits (list_ascii_of_string (padStart2 (z_to_string k))) = (ds, []) /\
             ds <> [] /\ digits_value ds = k.
Proof.
  intro Hk. rewrite <- (Z2Nat.id k) by lia.
  assert (Hn : (Z.to_nat k < 60)%nat) by lia.
  generalize (Z.to_nat k) Hn. clear Hk Hn. intros n Hn.
  do 60 (destruct n as [|n];
         [split; [reflexivity|eexists; split; [reflexivity|split; [discriminate|reflexivity]]]|]).
  lia.
Qed.

Lemma formatTime_positive (s : Q) :
  (0 < s)%Q ->
  formatTime (Some (Fin s)) =
  String.append (z_to_string (Qfloor s / 60))
    (String ":" (padStart2 (z_to_string (Qfloor s mod 60)))).
Proof.
  destruct s as [n d]. intro Hs. unfold Qlt in Hs. simpl in Hs.
  unfold formatTime.
  assert (Hf : num_falsy (Fin (n # d)) = false).
  { simpl. destruct (Qeq_bool (n # d) 0) eqn:E; [|reflexivity].
    apply Qeq_bool_eq in E. unfold Qeq in E. simpl in E. lia. }
  rewrite Hf. simpl num_isNaN. cbn [orb].
  unfold num_div, num_rem, num_floor, num_to_string.
  replace (Qeq_bool 60 0) with false by reflexivity.
  rewrite !Qfloor_Z.
  assert (Hm : Qfloor ((n # d) / 60) = Qfloor (n # d) / 60).
  { unfold Qfloor, Qdiv, Qmult, Qinv. simpl.
    rewrite Z.mul_1_r, Pos2Z.inj_mul, Z.div_div; lia. }
  rewrite Hm. do 4 f_equal.
  unfold Qfloor, Qdiv, Qmult, Qinv, Qminus, Qplus, Qopp, inject_Z. cbn [Qnum Qden].
  rewrite !Z.mul_1_r, !Pos.mul_1_r.
  rewrite Z.quot_div_nonneg by lia.
  rewrite Pos2Z.inj_mul, <- Z.div_div by lia.
  replace (n + - (60 * (n / Z.pos d / 60)) * Z.pos d) with
          (n + (- (60 * (n / Z.pos d / 60))) * Z.pos d) by ring.
  rewrite Z.div_add by lia.
  rewrite (Z.mod_eq (n / Z.pos d) 60) by lia. ring.
Qed.

Lemma Qfloor_pos_nonneg (s : Q) : (0 < s)%Q -> 0 <= Qfloor s.
Proof.
  destruct s as [n d]. unfold Qlt, Qfloor. simpl. intro H. apply Z.div_pos; lia.
Qed.

(** X1: for any positive number of seconds, the [M:SS] display produced by
    [formatTime] reads back as the whole minutes and the remaining whole
    seconds, the seconds always written with two digits; [undefined], [NaN]
    and [0] all display as [0:00]. *)
Theorem formatTime_roundtrip (s : Q) :
  (0 < s)%Q ->
  parse_mmss (formatTime (Some (Fin s))) = Some (Qfloor s / 60, Qfloor s mod 60) /\
  String.length (formatTime (Some (Fin s))) =
    (String.length (z_to_string (Qfloor s / 60)) + 3)%nat /\
  formatTime None = "0:00"%string /\ formatTime (Some NaN) = "0:00"%string /\
  formatTime (Some (Fin 0)) = "0:00"%string.
Proof.
  intro Hs. rewrite formatTime_positive by exact Hs.
  pose proof (Qfloor_pos_nonneg s Hs) as H0.
  set (m := Qfloor s / 60). set (k := Qfloor s mod 60).
  assert (Hm : 0 <= m) by (apply Z.div_pos; lia).
  assert (Hk : 0 <= k < 60) by (apply Z.mod_pos_bound; lia).
  destruct (secs_field k Hk) as (Hlen & ds2 & E2 & Hne2 & Hv2).
  split; [|split; [|repeat split]].
  - unfold z_to_string at 1. replace (m <? 0) with false by (symmetry; apply Z.ltb_ge; lia).
    destruct (nonneg_to_string_chars m Hm) as (ds & E & Hne & Hall & Hv).
    unfold parse_mmss. rewrite list_ascii_of_string_append, E. cbn [list_ascii_of_string].
    rewrite take_digits_chars by (exact Hall || reflexivity).
    destruct ds as [|d ds]; [congruence|]. cbn iota beta.
    replace ((":" =? ":")%char) with true by reflexivity.
    rewrite E2. destruct ds2 as [|d2 ds2]; [congruence|].
    rewrite <- Hv, <- Hv2. reflexivity.
  - rewrite string_length_append. simpl. rewrite Hlen. lia.
Qed.

Lemma formatTime_roundtrip_witness :
  (0 < 3725 # 1)%Q /\
  parse_mmss (formatTime (Some (Fin (3725 # 1)))) = Some (62, 5).
Proof.
  split; [reflexivity|].
  destruct (formatTime_roundtrip (3725 # 1) eq_refl) as [H _].
  rewrite H. reflexivity.
Defined.

(** ** Recently played, replayed and over a session *)

Lemma filter_all_true {A} (f : A -> bool) (l : list A) :
  (forall x, In x l -> f x = true) -> filter f l = l.
Proof.
  induction l as [|x l IH]; simpl; intro H; [reflexivity|].
  rewrite (H x (or_introl eq_refl)). f_equal. apply IH. auto.
Qed.

(** X2: replaying the track that was just played leaves the history as it
    is: the updater of [playTrack] is idempotent. *)
Theorem recordPlay_replay (t : Track) (prev : list Track) (r : list (option Track))
    (Hr : recordPlay (Some t) (map Some prev) = Ok r) :
  recordPlay (Some t) r = Ok r.
Proof.
  rewrite recordPlay_defined in Hr.
  assert (Er : r = map Some (firstn 10 (t :: filter (fun u => negb (id u =? id t)) prev)))
    by congruence.
  subst r. rewrite recordPlay_defined. do 2 f_equal.
  set (F := filter (fun u => negb (id u =? id t)) prev).
  change (firstn 10 (t :: F)) with (t :: firstn 9 F).
  cbn [filter]. rewrite Z.eqb_refl. cbn [negb].
  rewrite (filter_all_true _ (firstn 9 F)).
  - change (firstn 10 (t :: firstn 9 F)) with (t :: firstn 9 (firstn 9 F)).
    rewrite firstn_firstn. reflexivity.
  - intros x Hx. apply in_firstn in Hx. unfold F in Hx.
    apply filter_In in Hx as [_ Hx]. exact Hx.
Qed.

Lemma recordPlay_replay_witness :
  recordPlay (Some track_b) (map Some [track_a; track_b]) = Ok [Some track_b; Some track_a] /\
  recordPlay (Some track_b) [Some track_b; Some track_a] = Ok [Some track_b; Some track_a].
Proof.
  split; [reflexivity|]. apply (recordPlay_replay track_b [track_a; track_b]). reflexivity.
Defined.

Lemma play_timeout_fields (st : player) :
  recentlyPlayed (play_timeout st) = recentlyPlayed st /\
  currentTrack (play_timeout st) = currentTrack st /\
  isPlaying (play_timeout st) = isPlaying st /\
  audio (play_timeout st) = option_map audio_play (audio st).
Proof. unfold play_timeout. destruct (audio st) eqn:E; repeat split; simpl; rewrite ?E; auto. Qed.

Lemma step_play_defined (st : player) (t : Track) (h : list Track) :
  recentlyPlayed st = map Some h ->
  exists st', step st (EvPlayTrack t) = Ok st' /\
    recentlyPlayed st' = map Some (firstn 10 (t :: filter (fun u => negb (id u =? id t)) h)) /\
    currentTrack st' = Some t.
Proof.
  intro Hh. unfold step, playTrack. rewrite Hh, recordPlay_defined. cbn [js_bind].
  eexists. split; [reflexivity|].
  destruct (play_timeout_fields (commit st (set_session st (Some t) true
     (map Some (firstn 10 (t :: filter (fun u => negb (id u =? id t)) h))))))
    as (H1 & H2 & _). rewrite H1, H2. split; reflexivity.
Qed.

(** X3: over any sequence of [playTrack] events (each followed by its
    render and delayed [play()]), a history of defined tracks without
    duplicate identifiers and of length at most 10 stays so; every entry
    was in the old history or was played; after a non-empty sequence the
    last track played is current and heads the history. *)
Theorem history_invariant (ts : list Track) :
  forall (st : player) (h : list Track),
  recentlyPlayed st = map Some h -> NoDup (map id h) -> (List.length h <= 10)%nat ->
  exists st' h',
    run_events st (map EvPlayTrack ts) = Ok st' /\
    recentlyPlayed st' = map Some h' /\
    NoDup (map id h') /\ (List.length h' <= 10)%nat /\
    (forall u, In u h' -> In u h \/ In u ts) /\
    (ts <> [] -> currentTrack st' = hd_error (rev ts) /\ hd_error h' = hd_error (rev ts)).
Proof.
  induction ts as [|t ts IH]; intros st h Hh Hnd Hlen.
  - exists st, h. simpl. split; [reflexivity|]. split; [exact Hh|]. split; [exact Hnd|]. split; [exact Hlen|]. split; [auto|]. intro H; contradiction H; reflexivity.
  - destruct (step_play_defined st t h Hh) as (st1 & Hs & Hr1 & Hc1).
    set (L := firstn 10 (t :: filter (fun u => negb (id u =? id t)) h)) in *.
    assert (HndL : NoDup (map id L)).
    { unfold L. rewrite <- firstn_map. apply nodup_firstn. simpl. constructor.
      - apply filter_keep_no_t.
      - apply nodup_ids_filter. exact Hnd. }
    destruct (IH st1 L Hr1 HndL (firstn_le_length _ _))
      as (st' & h' & Hrun & Hr' & Hnd' & Hlen' & Hin' & Hlast).
    exists st', h'. cbn [map run_events]. rewrite Hs. cbn [js_bind].
    split; [exact Hrun|]. split; [exact Hr'|]. split; [exact Hnd'|].
    split; [exact Hlen'|]. split.
    + intros u Hu. destruct (Hin' u Hu) as [HL|Hts]; [|right; right; exact Hts].
      apply in_firstn in HL. destruct HL as [<-|HL]; [right; left; reflexivity|].
      apply filter_In in HL as [HL _]. left. exact HL.
    + intros _. destruct ts as [|t' ts'].
      * simpl in Hrun. injection Hrun as <-. simpl.
        split; [exact Hc1|]. destruct h' as [|x h'].
        -- simpl in Hr'. rewrite Hr1 in Hr'. unfold L in Hr'. discriminate.
        -- simpl. simpl in Hr'. rewrite Hr1 in Hr'. unfold L in Hr'.
           cbn [firstn map] in Hr'. injection Hr' as Hx _. congruence.
      * destruct (Hlast ltac:(discriminate)) as [Hc Hd].
        assert (E : hd_error (rev (t :: t' :: ts')) = hd_error (rev (t' :: ts'))).
        { cbn [rev]. rewrite <- app_assoc. destruct (rev ts'); reflexivity. }
        rewrite E. split; assumption.
Qed.

Lemma history_invariant_witness :
  exists st' h',
    run_events initial_player (map EvPlayTrack [track_a; track_b; track_a]) = Ok st' /\
    recentlyPlayed st' = map Some h' /\
    NoDup (map id h') /\ (List.length h' <= 10)%nat /\
    (forall u, In u h' -> In u [] \/ In u [track_a; track_b; track_a]) /\
    ([track_a; track_b; track_a] <> [] ->
     currentTrack st' = hd_error (rev [track_a; track_b; track_a]) /\
     hd_error h' = hd_error (rev [track_a; track_b; track_a])).
Proof.
  apply (history_invariant [track_a; track_b; track_a] initial_player []).
  - reflexivity.
  - constructor.
  - simpl. lia.
Defined.

(** ** Selecting the next and the previous track *)

Lemma findIndex_range {A} (p : A -> bool) (l : list A) :
  -1 <= findIndex p l < Z.of_nat (List.length l).
Proof.
  induction l as [|x l IH]; simpl; [lia|].
  destruct (p x); [lia|].
  destruct (Z.ltb_spec (findIndex p l) 0); lia.
Qed.

Lemma findIndex_found {A} (p : A -> bool) (l : list A) :
  0 <= findIndex p l -> exists x, nth_error l (Z.to_nat (findIndex p l)) = Some x /\ p x = true.
Proof.
  induction l as [|x l IH]; simpl; intro H; [lia|].
  destruct (p x) eqn:Ep; [exists x; split; [reflexivity|exact Ep]|].
  destruct (Z.ltb_spec (findIndex p l) 0); [lia|].
  destruct (IH ltac:(lia)) as (y & Hy & Hp). exists y. split; [|exact Hp].
  replace (Z.to_nat (findIndex p l + 1)) with (S (Z.to_nat (findIndex p l))) by lia.
  exact Hy.
Qed.

Lemma findIndex_minus1 (l : list Track) (k : Z) :
  findIndex (fun t => id t =? k) l = -1 <-> ~ In k (map id l).
Proof.
  induction l as [|x l IH]; simpl; [tauto|].
  destruct (Z.eqb_spec (id x) k) as [E|E].
  - split; [discriminate|]. intro H. exfalso. apply H. left. exact E.
  - pose proof (findIndex_range (fun t => id t =? k) l).
    destruct (Z.ltb_spec (findIndex (fun t => id t =? k) l) 0).
    + split; intro H'; [|reflexivity].
      intros [Hx|Hin]; [contradiction|]. apply IH in Hin; [exact Hin|lia].
    + split; intro H'; [lia|].
      exfalso. assert (Hm : findIndex (fun t => id t =? k) l <> -1) by lia.
      apply Hm. apply IH. intro Hin. apply H'. right. exact Hin.
Qed.

Lemma js_index_in (l : list Track) (k : Z) :
  0 <= k < Z.of_nat (List.length l) -> exists t, js_index l k = Some t /\ In t l.
Proof.
  intro Hk. unfold js_index. destruct (Z.ltb_spec k 0); [lia|].
  destruct (nth_error l (Z.to_nat k)) as [t|] eqn:E.
  - exists t. split; [reflexivity|]. eapply nth_error_In. exact E.
  - apply nth_error_None in E. lia.
Qed.

(** X4: with a non-empty result list and a current track, [playNext]
    always plays a track of the list, also when the current track is not
    in it; with a history of defined tracks it never throws. *)
Theorem playNext_selects_member (st : player) (c : Track) (h : list Track)
    (Hne : tracks st <> []) (Hc : currentTrack st = Some c)
    (Hh : recentlyPlayed st = map Some h) :
  exists st' t, playNext st = Ok st' /\ currentTrack st' = Some t /\ In t (tracks st).
Proof.
  unfold playNext, next_target. rewrite Hc.
  destruct (Nat.eqb_spec (List.length (tracks st)) 0) as [E|_].
  { destruct (tracks st); [contradiction|discriminate]. }
  set (i := findIndex (fun t => id t =? id c) (tracks st)).
  pose proof (findIndex_range (fun t => id t =? id c) (tracks st)) as Hr. fold i in Hr.
  assert (Hlen : 0 < Z.of_nat (List.length (tracks st)))
    by (destruct (tracks st); [contradiction|simpl; lia]).
  rewrite Z.rem_mod_nonneg by lia.
  destruct (js_index_in (tracks st) ((i + 1) mod Z.of_nat (List.length (tracks st))))
    as (t & Ht & Hin).
  { apply Z.mod_pos_bound. exact Hlen. }
  rewrite Ht. unfold playTrack. rewrite Hh, recordPlay_defined. cbn [js_bind].
  eexists. exists t. split; [reflexivity|]. split; [reflexivity|exact Hin].
Qed.

Lemma playNext_selects_member_witness :
  exists st' t, playNext player_foreign_current = Ok st' /\ currentTrack st' = Some t /\
    In t (tracks player_foreign_current).
Proof.
  apply (playNext_selects_member player_foreign_current track_x [track_x]);
    [discriminate|reflexivity|reflexivity].
Defined.

(** X5: with a non-empty result list, [playPrevious] hands [undefined] to
    [playTrack] exactly when the current track is not in the list; with a
    non-empty history the call then throws a [TypeError] (reading the
    [id] of [undefined]). *)
Theorem playPrevious_absent (st : player) (c : Track)
    (Hne : tracks st <> []) (Hc : currentTrack st = Some c) :
  (prev_target (tracks st) (Some c) = Some None <-> ~ In (id c) (map id (tracks st))) /\
  (~ In (id c) (map id (tracks st)) -> recentlyPlayed st <> [] ->
   playPrevious st = Throw TypeError).
Proof.
  assert (Hlen : 0 < Z.of_nat (List.length (tracks st)))
    by (destruct (tracks st); [contradiction|simpl; lia]).
  assert (Hnz : (List.length (tracks st) =? 0)%nat = false)
    by (apply Nat.eqb_neq; lia).
  assert (Habs : ~ In (id c) (map id (tracks st)) -> prev_target (tracks st) (Some c) = Some None).
  { intro H. apply findIndex_minus1 in H. unfold prev_target. rewrite Hnz, H. reflexivity. }
  split.
  - split; [|exact Habs]. intros Hp Hin.
    unfold prev_target in Hp. rewrite Hnz in Hp.
    set (i := findIndex (fun t => id t =? id c) (tracks st)) in Hp.
    pose proof (findIndex_range (fun t => id t =? id c) (tracks st)) as Hr. fold i in Hr.
    assert (Hi : i <> -1) by (intro E; apply findIndex_minus1 in E; contradiction).
    destruct (js_index_in (tracks st)
                (if i =? 0 then Z.of_nat (List.length (tracks st)) - 1 else i - 1))
      as (t & Ht & _).
    { destruct (Z.eqb_spec i 0); lia. }
    rewrite Ht in Hp. discriminate.
  - intros H Hr. unfold playPrevious. rewrite Hc, (Habs H).
    unfold playTrack, recordPlay.
    destruct (recentlyPlayed st) as [|[u|] r]; [contradiction| |]; reflexivity.
Qed.

Lemma playPrevious_absent_witness :
  (prev_target (tracks player_foreign_current) (Some track_x) = Some None <->
   ~ In (id track_x) (map id (tracks player_foreign_current))) /\
  (~ In (id track_x) (map id (tracks player_foreign_current)) ->
   recentlyPlayed player_foreign_current <> [] ->
   playPrevious player_foreign_current = Throw TypeError).
Proof.
  apply playPrevious_absent; [discriminate|reflexivity].
Defined.

(** ** Favorites *)

Lemma nodup_map_filter {A B} (g : A -> B) (f : A -> bool) (l : list A) :
  NoDup (map g l) -> NoDup (map g (filter f l)).
Proof.
  induction l as [|x l IH]; simpl; intro H; [constructor|].
  inversion H as [|? ? Hnin Hnd]; subst.
  destruct (f x); simpl; [|auto].
  constructor; [|auto]. intro Hin. apply Hnin.
  apply in_map_iff in Hin as (w & Hw & Hin). apply filter_In in Hin as [Hin _].
  rewrite <- Hw. apply in_map. exact Hin.
Qed.

Lemma nodup_snoc {A} (l : list A) (x : A) :
  NoDup l -> ~ In x l -> NoDup (l ++ [x]).
Proof.
  induction l as [|y l IH]; simpl; intros H Hx.
  - constructor; [intros []|constructor].
  - inversion H as [|? ? Hnin Hnd]; subst. constructor.
    + intro Hin. apply in_app_or in Hin as [Hin|[Hin|[]]]; [contradiction|].
      apply Hx. left. symmetry. exact Hin.
    + apply IH; [exact Hnd|]. intro Hin. apply Hx. right. exact Hin.
Qed.

(** X7: [toggleFavorite] keeps the favorites free of duplicate
    identifiers. *)
Theorem toggleFavorite_nodup (t : Track) (favs : list Track)
    (Hnd : NoDup (map id favs)) :
  NoDup (map id (toggleFavorite t favs)).
Proof.
  unfold toggleFavorite.
  destruct (existsb (fun fav => id fav =? id t) favs) eqn:E.
  - apply nodup_map_filter. exact Hnd.
  - rewrite map_app. apply nodup_snoc; [exact Hnd|].
    intro Hin. apply in_map_iff in Hin as (w & Hw & Hin).
    assert (existsb (fun fav => id fav =? id t) favs = true).
    { apply existsb_exists. exists w. split; [exact Hin|]. apply Z.eqb_eq. exact Hw. }
    congruence.
Qed.

Lemma toggleFavorite_nodup_witness :
  NoDup (map id [track_a; track_b]) /\ NoDup (map id (toggleFavorite track_c [track_a; track_b])).
Proof.
  assert (H : NoDup (map id [track_a; track_b])).
  { simpl. constructor; [simpl; intros [H|[]]; discriminate|].
    constructor; [intros []|constructor]. }
  split; [exact H|]. apply toggleFavorite_nodup. exact H.
Defined.

(** X8: pressing the heart twice restores a list that did not hold the
    track; for a track that was a favorite it ends up at the end of the
    list (its earlier position is not restored). *)
Theorem toggleFavorite_twice (t : Track) (favs : list Track) :
  toggleFavorite t (toggleFavorite t favs) =
  if isFavorite favs (id t)
  then filter (fun fav => negb (id fav =? id t)) favs ++ [t]
  else favs.
Proof.
  unfold isFavorite. unfold toggleFavorite at 2.
  destruct (existsb (fun fav => id fav =? id t) favs) eqn:E.
  - unfold toggleFavorite. rewrite existsb_filter.
    replace (existsb (fun x => (id x =? id t) && negb (id x =? id t)) favs) with false.
    + reflexivity.
    + clear E. induction favs as [|x favs IH]; simpl; [reflexivity|].
      destruct (id x =? id t); exact IH.
  - unfold toggleFavorite. rewrite existsb_app. simpl. rewrite Z.eqb_refl, orb_true_r.
    rewrite filter_app. simpl. rewrite Z.eqb_refl. simpl. rewrite app_nil_r.
    apply filter_all_true. intros x Hx.
    destruct (Z.eqb_spec (id x) (id t)) as [Ex|]; [|reflexivity].
    exfalso. assert (existsb (fun fav => id fav =? id t) favs = true).
    { apply existsb_exists. exists x. split; [exact Hx|]. apply Z.eqb_eq. exact Ex. }
    congruence.
Qed.

(** ** Progress after time updates and seeks *)

Lemma progress_bounded (ct d : Q) :
  (0 < d)%Q -> (0 <= ct <= d)%Q -> (0 <= ct / d * 100 <= 100)%Q.
Proof.
  intros Hd [H0 H1]. split.
  - apply Qmult_le_0_compat; [|discriminate].
    apply Qle_shift_div_l; [exact Hd|]. rewrite Qmult_0_l. exact H0.
  - rewrite <- (Qmult_1_l 100) at 2. apply Qmult_le_r; [reflexivity|].
    apply Qle_shift_div_r; [exact Hd|]. rewrite Qmult_1_l. exact H1.
Qed.

Lemma timeUpdate_in_range (st : player) (a : audio_el) (d : Q) :
  audio st = Some a -> a_duration a = Fin d -> (0 < d)%Q -> (0 <= a_currentTime a <= d)%Q ->
  exists p, progress (handleTimeUpdate st) = Fin p /\ (0 <= p <= 100)%Q.
Proof.
  intros Ha Hd Hd0 Hct. unfold handleTimeUpdate. rewrite Ha, Hd. simpl.
  destruct (Qeq_bool d 0) eqn:E.
  { apply Qeq_bool_eq in E. rewrite E in Hd0. discriminate. }
  simpl. destruct (Qeq_bool (a_currentTime a / d * 100) 0); simpl.
  - exists 0%Q. split; [reflexivity|]. split; discriminate.
  - eexists. split; [reflexivity|]. apply progress_bounded; assumption.
Qed.

(** X9: with a known positive duration, a seek (wherever the click
    lands, even past the bar) followed by the next time update reports a
    progress in [[0, 100]]: the engine clamps the position and the time
    update recomputes the percentage from it. *)
Theorem seek_then_timeUpdate_in_range (st st' : player) (a : audio_el) (d cp w : Q)
    (Ha : audio st = Some a) (Hd : a_duration a = Fin d) (Hd0 : (0 < d)%Q)
    (Hs : handleProgressClick st cp w = Ok st') :
  exists p, progress (handleTimeUpdate st') = Fin p /\ (0 <= p <= 100)%Q.
Proof.
  unfold handleProgressClick in Hs. rewrite Ha in Hs.
  destruct (seek_newTime (seek_percentage cp w) (a_duration a)) as [x| |] eqn:En;
    simpl in Hs; try discriminate.
  rewrite Hd in Hs. injection Hs as <-.
  apply (timeUpdate_in_range _ (mkAudio (a_volume a) (Qmax 0 (Qmin x d)) (Fin d) (a_src a)) d);
    [reflexivity|reflexivity|exact Hd0|]. simpl. split.
  - apply Q.le_max_l.
  - apply Q.max_lub; [apply Qlt_le_weak; exact Hd0|apply Q.le_min_r].
Qed.

Lemma seek_then_timeUpdate_in_range_witness :
  handleProgressClick player_midway 300 200 =
    Ok (set_progress (set_audio player_midway (Some (mkAudio (7 # 10) 30 (Fin 30) (preview track_b))))
          (Fin (300 / 200 * 100))) /\
  exists p, progress (handleTimeUpdate
     (set_progress (set_audio player_midway (Some (mkAudio (7 # 10) 30 (Fin 30) (preview track_b))))
          (Fin (300 / 200 * 100)))) = Fin p /\ (0 <= p <= 100)%Q.
Proof.
  assert (Hs : handleProgressClick player_midway 300 200 =
    Ok (set_progress (set_audio player_midway (Some (mkAudio (7 # 10) 30 (Fin 30) (preview track_b))))
          (Fin (300 / 200 * 100)))) by (vm_compute; reflexivity).
  split; [exact Hs|].
  exact (seek_then_timeUpdate_in_range player_midway _ (mkAudio (7 # 10) 15 (Fin 30) (preview track_b))
           30 300 200 eq_refl eq_refl eq_refl Hs).
Defined.

(** ** Play and pause *)

(** X10: with an element and a current track, [togglePlayPause] sends
    exactly one command, [pause] when playing and [play] otherwise, and
    flips [isPlaying], so the flag tells which command was sent last; two
    presses restore the flag and send opposite commands. *)
Theorem togglePlayPause_sends (st : player)
    (Ha : audio st <> None) (Hc : currentTrack st <> None) :
  audio_log (togglePlayPause st) =
    audio_log st ++ [if isPlaying (togglePlayPause st) then CmdPlay else CmdPause] /\
  isPlaying (togglePlayPause st) = negb (isPlaying st) /\
  isPlaying (togglePlayPause (togglePlayPause st)) = isPlaying st /\
  audio_log (togglePlayPause (togglePlayPause st)) =
    audio_log st ++ (if isPlaying st then [CmdPause; CmdPlay] else [CmdPlay; CmdPause]).
Proof.
  unfold togglePlayPause.
  destruct (audio st) as [a|] eqn:Ea; [|contradiction].
  destruct (currentTrack st) as [c|] eqn:Ec; [|contradiction].
  destruct (isPlaying st) eqn:Ep; cbn; rewrite ?Ea, ?Ec, ?Ep; cbn;
    rewrite <- ?app_assoc; repeat split.
Qed.

Lemma togglePlayPause_sends_witness :
  audio_log (togglePlayPause sample_player) =
    audio_log sample_player ++ [if isPlaying (togglePlayPause sample_player) then CmdPlay else CmdPause] /\
  isPlaying (togglePlayPause sample_player) = negb (isPlaying sample_player) /\
  isPlaying (togglePlayPause (togglePlayPause sample_player)) = isPlaying sample_player /\
  audio_log (togglePlayPause (togglePlayPause sample_player)) =
    audio_log sample_player ++
      (if isPlaying sample_player then [CmdPause; CmdPlay] else [CmdPlay; CmdPause]).
Proof. apply togglePlayPause_sends; discriminate. Defined.

(** X11: a [playTrack] event (with a history of defined tracks) always
    leaves an element for the track, sends it [play] and sets [isPlaying];
    if an element existed, its output volume is unchanged, and its
    position is kept when the track's preview is the element's source and
    the element has not ended; it is 0 otherwise (a new source restarts
    loading, and [play()] on an ended element seeks to the start). *)
Theorem play_event_effects (st : player) (t : Track) (h : list Track)
    (Hh : recentlyPlayed st = map Some h) :
  exists st' el,
    step st (EvPlayTrack t) = Ok st' /\
    audio st' = Some el /\ a_src el = preview t /\
    isPlaying st' = true /\
    audio_log st' = audio_log st ++ [CmdPlay] /\
    (forall a, audio st = Some a ->
       a_volume el = a_volume a /\
       a_currentTime el =
         (if (preview t =? a_src a)%string && negb (a_ended a) then a_currentTime a else 0%Q)).
Proof.
  unfold step, playTrack. rewrite Hh, recordPlay_defined. cbn [js_bind].
  set (s1 := set_session st (Some t) true
               (map Some (firstn 10 (t :: filter (fun u => negb (id u =? id t)) h)))).
  assert (Hdc : volume_deps_changed st s1 = false).
  { unfold volume_deps_changed. simpl. rewrite Qeq_bool_refl, eqb_reflx. reflexivity. }
  set (el0 := match audio st with
              | Some a => audio_set_src (preview t) a
              | None => fresh_audio (preview t)
              end).
  assert (Hc : audio (commit st s1) = Some el0).
  { unfold commit. rewrite Hdc. reflexivity. }
  exists (play_timeout (commit st s1)), (audio_play el0).
  split; [reflexivity|].
  unfold play_timeout. rewrite Hc.
  split; [unfold send_play; rewrite Hc; reflexivity|].
  split.
  { assert (Hs : a_src el0 = preview t).
    { unfold el0. destruct (audio st) as [a|]; [|reflexivity].
      unfold audio_set_src. destruct (String.eqb_spec (preview t) (a_src a)); [|reflexivity].
      symmetry. assumption. }
    unfold audio_play. destruct (a_ended el0); exact Hs. }
  split; [reflexivity|]. split; [reflexivity|].
  intros a Ha. unfold el0. rewrite Ha. unfold audio_set_src.
  destruct (preview t =? a_src a)%string; cbn [andb].
  - unfold audio_play. destruct (a_ended a); split; reflexivity.
  - split; reflexivity.
Qed.

Lemma play_event_effects_witness :
  exists st' el,
    step sample_player (EvPlayTrack track_b) = Ok st' /\
    audio st' = Some el /\ a_src el = preview track_b /\
    isPlaying st' = true /\
    audio_log st' = audio_log sample_player ++ [CmdPlay] /\
    (forall a, audio sample_player = Some a ->
       a_volume el = a_volume a /\
       a_currentTime el =
         (if (preview track_b =? a_src a)%string && negb (a_ended a)
          then a_currentTime a else 0%Q)).
Proof. apply (play_event_effects sample_player track_b [track_b]). reflexivity. Defined.

(** ** Mute button and volume slider *)

(** X12: with a current track, the mute button sets the output volume to
    0 when unmuted and back to [volume] when muted; two presses restore
    both [isMuted] and the output volume of the first press's opposite. *)
Theorem mute_button (st : player) (Hc : currentTrack st <> None) :
  isMuted (onMuteClick st) = negb (isMuted st) /\
  effective_volume (onMuteClick st) = Some (if isMuted st then volume st else 0%Q) /\
  isMuted (onMuteClick (onMuteClick st)) = isMuted st /\
  effective_volume (onMuteClick (onMuteClick st)) =
    Some (if isMuted st then 0%Q else volume st).
Proof.
  assert (H1 : forall s, currentTrack s <> None ->
            effective_volume (onMuteClick s) = Some (if isMuted s then volume s else 0%Q)).
  { intros s Hs. unfold onMuteClick. rewrite commit_effect.
    - simpl. destruct (isMuted s); reflexivity.
    - exact Hs.
    - apply muted_change. destruct (isMuted s); discriminate. }
  split; [reflexivity|]. split; [exact (H1 st Hc)|].
  split; [simpl; apply negb_involutive|].
  rewrite H1 by exact Hc. simpl. destruct (isMuted st); reflexivity.
Qed.

Lemma mute_button_witness :
  isMuted (onMuteClick sample_player) = negb (isMuted sample_player) /\
  effective_volume (onMuteClick sample_player) =
    Some (if isMuted sample_player then volume sample_player else 0%Q) /\
  isMuted (onMuteClick (onMuteClick sample_player)) = isMuted sample_player /\
  effective_volume (onMuteClick (onMuteClick sample_player)) =
    Some (if isMuted sample_player then 0%Q else volume sample_player).
Proof. apply mute_button. discriminate. Defined.

(** X13: with a current track, moving the slider unmutes and outputs the
    new value whenever the player was muted or the value differs from the
    stored volume; moving it to the stored volume while unmuted changes
    no dependency, so the output volume stays what the element had (the
    engine default 1 for an element not yet given a volume). *)
Theorem volume_slider (st : player) (v : Q) (Hc : currentTrack st <> None) :
  isMuted (onVolumeSlider st v) = false /\
  ((isMuted st = true \/ ~ volume st == v) -> effective_volume (onVolumeSlider st v) = Some v) /\
  (isMuted st = false -> volume st == v ->
   effective_volume (onVolumeSlider st v) =
     Some (match audio st with Some a => a_volume a | None => 1%Q end)).
Proof.
  split; [reflexivity|]. split.
  - intro H. unfold onVolumeSlider. rewrite commit_effect; [reflexivity|exact Hc|].
    unfold volume_deps_changed. simpl. destruct H as [H|H].
    + rewrite H. apply orb_true_r.
    + destruct (Qeq_bool (volume st) v) eqn:E; [|reflexivity].
      apply Qeq_bool_eq in E. contradiction.
  - intros Hm Hv. unfold onVolumeSlider, commit.
    assert (Hd : volume_deps_changed st (set_muted_state (set_volume_state st v) false) = false).
    { unfold volume_deps_changed. simpl. rewrite Hm.
      apply Qeq_bool_iff in Hv. rewrite Hv. reflexivity. }
    rewrite Hd. unfold effective_volume. simpl.
    destruct (currentTrack st) as [t|]; [|contradiction].
    destruct (audio st) as [a|]; [|reflexivity].
    unfold audio_set_src. destruct (preview t =? a_src a)%string; reflexivity.
Qed.

Lemma volume_slider_witness :
  isMuted (onVolumeSlider sample_player (1 # 2)) = false /\
  ((isMuted sample_player = true \/ ~ volume sample_player == 1 # 2) ->
   effective_volume (onVolumeSlider sample_player (1 # 2)) = Some (1 # 2)) /\
  (isMuted sample_player = false -> volume sample_player == 1 # 2 ->
   effective_volume (onVolumeSlider sample_player (1 # 2)) =
     Some (match audio sample_player with Some a => a_volume a | None => 1%Q end)).
Proof. apply volume_slider. discriminate. Defined.

(** ** Searching and the trending list *)

(** X14: a blank query changes nothing; any other search ends with
    [loading] false and leaves the current track, the history and the
    audio element alone; a primary response with data sets its first 12
    tracks (the fallback is not consulted), and after a failed primary a
    fallback with data sets its first 12 tracks. *)
Theorem searchMusic_outcome (st : player) (query : string) (primary fallback : response) :
  (blank_query query = true -> searchMusic st query primary fallback = st) /\
  (blank_query query = false ->
   let st' := searchMusic st query primary fallback in
   loading st' = false /\ currentTrack st' = currentTrack st /\
   recentlyPlayed st' = recentlyPlayed st /\ audio st' = audio st /\
   (forall l, primary = RespResolved (Some l) -> tracks st' = firstn 12 l) /\
   (forall l, (primary = RespRejected \/ primary = RespResolved None) ->
      fallback = RespResolved (Some l) -> tracks st' = firstn 12 l)).
Proof.
  unfold searchMusic. split; intro Hb; rewrite Hb; [reflexivity|].
  cbv zeta.
  destruct primary as [|[l0|]], fallback as [|[l1|]];
    cbn [response_tracks set_loading set_tracks add_notice
         tracks loading currentTrack recentlyPlayed audio];
    repeat split; intros;
    repeat match goal with H : _ \/ _ |- _ => destruct H end;
    try discriminate; congruence.
Qed.

Lemma searchMusic_outcome_witness :
  (blank_query "  " = true -> searchMusic sample_player "  " RespRejected RespRejected = sample_player) /\
  (blank_query "  " = false ->
   let st' := searchMusic sample_player "  " RespRejected RespRejected in
   loading st' = false /\ currentTrack st' = currentTrack sample_player /\
   recentlyPlayed st' = recentlyPlayed sample_player /\ audio st' = audio sample_player /\
   (forall l, RespRejected = RespResolved (Some l) -> tracks st' = firstn 12 l) /\
   (forall l, (RespRejected = RespRejected \/ RespRejected = RespResolved None) ->
      RespRejected = RespResolved (Some l) -> tracks st' = firstn 12 l)).
Proof. apply searchMusic_outcome. Defined.

(** X15: the mount-time fetch never shows more than 10 trending tracks,
    and when both requests fail the list keeps its previous content. *)
Theorem fetchTrending_bounded (trending : list Track) (primary fallback : response)
    (Hlen : (List.length trending <= 10)%nat) :
  (List.length (fetchTrending trending primary fallback) <= 10)%nat /\
  ((forall d, primary <> RespResolved (Some d)) -> (forall d, fallback <> RespResolved (Some d)) ->
   fetchTrending trending primary fallback = trending).
Proof.
  unfold fetchTrending. split.
  - destruct primary as [|[l|]]; [| apply firstn_le_length |];
      destruct fallback as [|[l'|]]; try apply firstn_le_length; exact Hlen.
  - intros Hp Hf.
    destruct primary as [|[l|]]; [| exfalso; apply (Hp l); reflexivity |];
      (destruct fallback as [|[l'|]]; [reflexivity| exfalso; apply (Hf l'); reflexivity | reflexivity]).
Qed.

Lemma fetchTrending_bounded_witness :
  (List.length (fetchTrending [] RespRejected (RespResolved (Some [track_a; track_b]))) <= 10)%nat /\
  ((forall d, RespRejected <> RespResolved (Some d)) ->
   (forall d, RespResolved (Some [track_a; track_b]) <> RespResolved (Some d)) ->
   fetchTrending [] RespRejected (RespResolved (Some [track_a; track_b])) = []).
Proof. apply fetchTrending_bounded. simpl. lia. Defined.

(** ** Saving to and loading from storage *)

Lemma json_ind' (P : json -> Prop)
    (HN : P JNull) (HB : forall b, P (JBool b)) (HQ : forall q, P (JNum q))
    (HS : forall s, P (JStr s))
    (HA : forall xs, Forall P xs -> P (JArr xs))
    (HO : forall ms, Forall (fun kv => P (snd kv)) ms -> P (JObj ms)) :
  forall v, P v.
Proof.
  fix F 1. intros [| b | q | s | xs | ms].
  - exact HN.
  - apply HB.
  - apply HQ.
  - apply HS.
  - apply HA.
    exact ((fix G (l : list json) : Forall P l :=
              match l with
              | [] => Forall_nil P
              | x :: r => @Forall_cons _ P x r (F x) (G r)
              end) xs).
  - apply HO.
    exact ((fix G (l : list (string * json)) : Forall (fun kv => P (snd kv)) l :=
              match l with
              | [] => Forall_nil _
              | (k, x) :: r => @Forall_cons _ (fun kv => P (snd kv)) (k, x) r (F x) (G r)
              end) ms).
Qed.

Lemma parse_chars_quote (c : ascii) (r : list ascii) :
  parse_chars (quote_char c ++ r) =
  (p <- parse_chars r ;; let '(s, rest) := p in Ok (c :: s, rest)).
Proof. destruct c as [[] [] [] [] [] [] [] []]; reflexivity. Qed.

Lemma parse_chars_quoted (cs r : list ascii) :
  parse_chars (List.concat (map quote_char cs) ++ dquote :: r) = Ok (cs, r).
Proof.
  induction cs as [|c cs IH]; [reflexivity|].
  cbn [map List.concat]. rewrite <- app_assoc, parse_chars_quote, IH. reflexivity.
Qed.

Lemma parse_string_quoted (s : string) (r : list ascii) :
  parse_string (quote_json_string s ++ r) = Ok (s, r).
Proof.
  unfold parse_string, quote_json_string. rewrite <- app_comm_cons, <- app_assoc.
  cbn [app]. rewrite Ascii.eqb_refl, parse_chars_quoted. cbn [js_bind].
  rewrite string_of_list_ascii_of_string. reflexivity.
Qed.

Lemma skip_ws_first (c : ascii) (r : list ascii) :
  In c first_chars -> skip_ws (c :: r) = c :: r.
Proof.
  intro H. repeat (destruct H as [<-|H]; [reflexivity|]). destruct H.
Qed.

Lemma digit_char_first (d : Z) :
  0 <= d < 10 -> In (digit_char d) ["0"; "1"; "2"; "3"; "4"; "5"; "6"; "7"; "8"; "9"]%char.
Proof.
  intro H.
  assert (E : d = 0 \/ d = 1 \/ d = 2 \/ d = 3 \/ d = 4 \/ d = 5 \/ d = 6 \/ d = 7 \/ d = 8 \/ d = 9)
    by lia.
  repeat destruct E as [->|E]; subst; simpl; tauto.
Qed.

Lemma dec_digits_head (fuel : nat) (n : Z) (acc : list Z) :
  0 <= n <= Z.of_nat fuel ->
  exists d r, dec_digits fuel n acc = d :: r /\ (0 < d \/ (d = n /\ r = acc)).
Proof.
  revert n acc; induction fuel as [|f IH]; intros n acc Hn.
  - exists n, acc. split; [reflexivity|]. right. split; reflexivity.
  - cbn [dec_digits]. destruct (Z.ltb_spec n 10) as [Hlt|Hge].
    + exists n, acc. split; [reflexivity|]. right. split; reflexivity.
    + assert (Hq : 0 <= n / 10 <= Z.of_nat f).
      { split; [apply Z.div_pos; lia|].
        assert (n / 10 <= n - 9) by (apply Z.div_le_upper_bound; lia). lia. }
      destruct (IH (n / 10) (n mod 10 :: acc) Hq) as (d & r & E & Hd).
      exists d, r. split; [exact E|]. left.
      assert (1 <= n / 10) by (apply Z.div_le_lower_bound; lia).
      destruct Hd as [Hd|[-> _]]; lia.
Qed.

(** The digits printed for [n >= 0]: no leading zero unless [n] is 0. *)
Lemma nonneg_digits (n : Z) :
  0 <= n ->
  exists d ds, list_ascii_of_string (nonneg_to_string n) = map digit_char (d :: ds) /\
    Forall (fun d => 0 <= d < 10) (d :: ds) /\ digits_value (d :: ds) = n /\
    (0 < d \/ (d = n /\ ds = [])).
Proof.
  intro Hn.
  destruct (dec_digits_spec (Z.to_nat n) n [] ltac:(lia)) as (l & E & _ & Hall & Hv).
  destruct (dec_digits_head (Z.to_nat n) n [] ltac:(lia)) as (d & r & E' & Hd).
  rewrite app_nil_r in E. rewrite E in E'. rewrite E' in Hall, Hv.
  exists d, r. unfold nonneg_to_string.
  rewrite E, E', list_ascii_of_string_of_list_ascii. auto.
Qed.

Lemma value_end_no_digit (rest : list ascii) :
  value_end rest -> match rest with c :: _ => digit_val c = None | [] => True end.
Proof. destruct rest as [|c r]; [trivial|]. intros [-> | [-> | ->]]; reflexivity. Qed.

Lemma parse_number_digits (neg : bool) (d : Z) (ds : list Z) (rest : list ascii) :
  Forall (fun d => 0 <= d < 10) (d :: ds) -> (0 < d \/ ds = []) -> value_end rest ->
  parse_number ((if neg then ["-"%char] else []) ++ map digit_char (d :: ds) ++ rest) =
  Ok (inject_Z (if neg then - digits_value (d :: ds) else digits_value (d :: ds)), rest).
Proof.
  intros Hall Hd Hr.
  assert (Ht : take_digits (map digit_char (d :: ds) ++ rest) = (d :: ds, rest))
    by (apply take_digits_chars; [exact Hall|apply value_end_no_digit; exact Hr]).
  assert (Hneg : match (if neg then ["-"%char] else []) ++ map digit_char (d :: ds) ++ rest with
                 | "-"%char :: r => (true, r)
                 | _ => (false, (if neg then ["-"%char] else []) ++ map digit_char (d :: ds) ++ rest)
                 end = (neg, map digit_char (d :: ds) ++ rest)).
  { destruct neg; [reflexivity|]. cbn [app map].
    inversion Hall as [|? ? Hd0 _]; subst.
    apply digit_char_first in Hd0.
    repeat (destruct Hd0 as [Hc|Hd0]; [rewrite <- Hc; reflexivity|]). destruct Hd0. }
  unfold parse_number. rewrite Hneg. cbv iota beta. rewrite Ht.
  assert (Hlead : forall (A : Type) (K : A) (T : A),
             match d :: ds with [] => T | 0 :: _ :: _ => T | _ => K end = K).
  { intros A K T. destruct Hd as [Hd| ->]; [destruct d; [lia|reflexivity|lia]|].
    destruct d; reflexivity. }
  rewrite Hlead.
  destruct rest as [|c r].
  - cbn. rewrite app_nil_r. unfold inject_Z. f_equal. f_equal. unfold Qmult. cbn.
    rewrite Z.mul_1_r. reflexivity.
  - destruct Hr as [-> | [-> | ->]]; cbn; rewrite app_nil_r; unfold inject_Z, Qmult; cbn;
      rewrite Z.mul_1_r; reflexivity.
Qed.

Lemma z_to_string_digits (z : Z) :
  exists d ds, list_ascii_of_string (z_to_string z) =
      (if z <? 0 then ["-"%char] else []) ++ map digit_char (d :: ds) /\
    Forall (fun d => 0 <= d < 10) (d :: ds) /\ digits_value (d :: ds) = Z.abs z /\
    (0 < d \/ ds = []).
Proof.
  unfold z_to_string. destruct (Z.ltb_spec z 0) as [Hz|Hz].
  - destruct (nonneg_digits (- z) ltac:(lia)) as (d & ds & E & Hall & Hv & Hd).
    exists d, ds. cbn [list_ascii_of_string]. rewrite E.
    split; [reflexivity|]. split; [exact Hall|]. split; [rewrite Hv; lia|].
    destruct Hd as [Hd|[_ Hd]]; auto.
  - destruct (nonneg_digits z Hz) as (d & ds & E & Hall & Hv & Hd).
    exists d, ds. rewrite E.
    split; [reflexivity|]. split; [exact Hall|]. split; [rewrite Hv; lia|].
    destruct Hd as [Hd|[_ Hd]]; auto.
Qed.

Lemma json_to_chars_first (v : json) (s : list ascii) :
  json_to_chars v = Some s -> exists c r, s = c :: r /\ In c first_chars.
Proof.
  destruct v as [| b | q | str | xs | ms]; simpl; intro H.
  - injection H as <-. eexists _, _. split; [reflexivity|]. simpl; tauto.
  - injection H as <-. destruct b; (eexists _, _; split; [reflexivity|]); simpl; tauto.
  - destruct (_ && _); [|discriminate]. injection H as <-.
    destruct (z_to_string_digits (Qnum q)) as (d & ds & E & Hall & _).
    rewrite E. destruct (Qnum q <? 0).
    + eexists _, _. split; [reflexivity|]. simpl; tauto.
    + inversion Hall as [|? ? Hd _]; subst. apply digit_char_first in Hd.
      eexists _, _. split; [reflexivity|]. unfold first_chars.
      do 4 right. exact Hd || (simpl in Hd |- *; tauto).
  - injection H as <-. eexists _, _. split; [reflexivity|]. unfold first_chars. simpl; tauto.
  - destruct (join_opt json_to_chars xs); [|discriminate]. injection H as <-.
    eexists _, _. split; [reflexivity|]. simpl; tauto.
  - match type of H with option_map _ ?j = _ => destruct j end; [|discriminate].
    injection H as <-. eexists _, _. split; [reflexivity|]. simpl; tauto.
Qed.

Lemma parse_value_number_S (f : nat) (c : ascii) (r : list ascii) :
  In c ["-"; "0"; "1"; "2"; "3"; "4"; "5"; "6"; "7"; "8"; "9"]%char ->
  parse_value (S f) (c :: r) =
  (p <- parse_number (c :: r) ;; let '(q, rest) := p in Ok (JNum q, rest)).
Proof. intro H. repeat (destruct H as [<-|H]; [reflexivity|]). destruct H. Qed.

Lemma parse_value_string_S (f : nat) (r : list ascii) :
  parse_value (S f) (dquote :: r) =
  (p <- parse_string (dquote :: r) ;; let '(s, rest) := p in Ok (JStr s, rest)).
Proof. reflexivity. Qed.

Lemma parse_value_arr_S (f : nat) (c : ascii) (r : list ascii) :
  In c first_chars ->
  parse_value (S f) ("["%char :: c :: r) =
  (p <- parse_elements f (c :: r) ;; let '(xs, rest) := p in Ok (JArr xs, rest)).
Proof. intro H. repeat (destruct H as [<-|H]; [reflexivity|]). destruct H. Qed.

Lemma parse_value_obj_S (f : nat) (r : list ascii) :
  parse_value (S f) ("{"%char :: dquote :: r) =
  (p <- parse_members f (dquote :: r) ;; let '(ms, rest) := p in Ok (JObj ms, rest)).
Proof. reflexivity. Qed.

Lemma parse_elements_more (f : nat) (cs r : list ascii) (v : json) :
  parse_value f cs = Ok (v, ","%char :: r) ->
  parse_elements (S f) cs =
  (p <- parse_elements f (skip_ws r) ;; let '(vs, rest) := p in Ok (v :: vs, rest)).
Proof. intro H. simpl. rewrite H. reflexivity. Qed.

Lemma parse_elements_last (f : nat) (cs r : list ascii) (v : json) :
  parse_value f cs = Ok (v, "]"%char :: r) -> parse_elements (S f) cs = Ok ([v], r).
Proof. intro H. simpl. rewrite H. reflexivity. Qed.

Lemma parse_members_more (f : nat) (cs r1 r : list ascii) (k : string) (v : json) :
  parse_string cs = Ok (k, ":"%char :: r1) ->
  parse_value f (skip_ws r1) = Ok (v, ","%char :: r) ->
  parse_members (S f) cs =
  (p <- parse_members f (skip_ws r) ;; let '(ms, rest) := p in Ok ((k, v) :: ms, rest)).
Proof. intros H1 H2. simpl. rewrite H1. simpl. rewrite H2. reflexivity. Qed.

Lemma parse_members_last (f : nat) (cs r1 r : list ascii) (k : string) (v : json) :
  parse_string cs = Ok (k, ":"%char :: r1) ->
  parse_value f (skip_ws r1) = Ok (v, "}"%char :: r) ->
  parse_members (S f) cs = Ok ([(k, v)], r).
Proof. intros H1 H2. simpl. rewrite H1. simpl. rewrite H2. reflexivity. Qed.

Lemma join_first (xs : list json) (b : list ascii) :
  xs <> [] -> join_opt json_to_chars xs = Some b -> exists c r, b = c :: r /\ In c first_chars.
Proof.
  destruct xs as [|x xs]; [contradiction|]. intros _. simpl.
  destruct (json_to_chars x) as [a|] eqn:Ea; [|discriminate].
  destruct (join_opt json_to_chars xs); [|discriminate]. intro H. injection H as <-.
  destruct (json_to_chars_first x a Ea) as (c & r & -> & Hc).
  exists c, (r ++ match xs with [] => [] | _ => ","%char :: l end). split; [reflexivity|exact Hc].
Qed.

Lemma skip_ws_json (v : json) (s rest : list ascii) :
  json_to_chars v = Some s -> skip_ws (s ++ rest) = s ++ rest.
Proof.
  intro H. destruct (json_to_chars_first v s H) as (c & r & -> & Hc).
  apply skip_ws_first. exact Hc.
Qed.

Lemma parse_elements_json (xs : list json) :
  Forall parses_back xs -> forall b, xs <> [] -> join_opt json_to_chars xs = Some b ->
  forall f rest, (list_sum (map (fun x => S (jsize x)) xs) <= f)%nat ->
  parse_elements f (b ++ "]"%char :: rest) = Ok (xs, rest).
Proof.
  induction 1 as [|x xs Hx Hxs IH]; intros b Hne Hj f rest Hf; [contradiction|].
  simpl in Hj. destruct (json_to_chars x) as [a|] eqn:Ea; [|discriminate].
  destruct (join_opt json_to_chars xs) as [b'|] eqn:Eb; [|discriminate].
  injection Hj as <-. cbn [map list_sum fold_right] in Hf.
  destruct f as [|f]; [lia|].
  destruct xs as [|x' xs'].
  - rewrite app_nil_r. apply parse_elements_last.
    apply Hx; [exact Ea|lia|right; left; reflexivity].
  - rewrite <- app_assoc. cbn [app].
    rewrite (parse_elements_more f _ (b' ++ "]"%char :: rest) x).
    + destruct (join_first (x' :: xs') b' ltac:(discriminate) Eb) as (c & r & -> & Hc).
      rewrite <- app_comm_cons, skip_ws_first by exact Hc. rewrite app_comm_cons.
      rewrite IH; [reflexivity|discriminate|reflexivity|unfold list_sum; lia].
    + apply Hx; [exact Ea|lia|left; reflexivity].
Qed.

Lemma member_join_first (ms : list (string * json)) (b : list ascii) :
  ms <> [] -> join_opt member_chars ms = Some b -> exists r, b = dquote :: r.
Proof.
  destruct ms as [|[k x] ms]; [contradiction|]. intros _. cbn [join_opt member_chars].
  destruct (json_to_chars x) as [a|]; [|discriminate].
  destruct (join_opt member_chars ms); [|discriminate]. intro H.
  pose proof (f_equal (fun o => match o with Some l => l | None => [] end) H) as E.
  cbv beta iota in E. subst b. eexists. unfold quote_json_string. cbn [option_map].
  rewrite <- !app_comm_cons. reflexivity.
Qed.

Lemma parse_members_json (ms : list (string * json)) :
  Forall (fun kv => parses_back (snd kv)) ms -> forall b, ms <> [] ->
  join_opt member_chars ms = Some b ->
  forall f rest, (list_sum (map (fun '(_, x) => S (jsize x)) ms) <= f)%nat ->
  parse_members f (b ++ "}"%char :: rest) = Ok (ms, rest).
Proof.
  induction 1 as [|[k x] ms Hx Hms IH]; intros b Hne Hj f rest Hf; [contradiction|].
  cbn [snd] in Hx. cbn [join_opt member_chars] in Hj.
  destruct (json_to_chars x) as [a|] eqn:Ea; [|discriminate].
  destruct (join_opt member_chars ms) as [b'|] eqn:Eb; [|discriminate].
  cbn [option_map] in Hj.
  pose proof (f_equal (fun o => match o with Some l => l | None => [] end) Hj) as Eb0.
  cbv beta iota in Eb0. subst b. clear Hj. cbn [map list_sum fold_right] in Hf.
  destruct f as [|f]; [lia|].
  destruct ms as [|kv' ms'].
  - rewrite app_nil_r, <- !app_assoc, <- !app_comm_cons.
    apply (parse_members_last f _ (a ++ "}"%char :: rest) rest k x).
    + apply parse_string_quoted.
    + rewrite (skip_ws_json x a _ Ea). apply Hx; [exact Ea|lia|right; right; reflexivity].
  - rewrite <- !app_assoc, <- !app_comm_cons.
    rewrite (parse_members_more f _ (a ++ ","%char :: b' ++ "}"%char :: rest)
               (b' ++ "}"%char :: rest) k x).
    + destruct (member_join_first (kv' :: ms') b' ltac:(discriminate) Eb) as (r & ->).
      rewrite <- app_comm_cons, skip_ws_first by (unfold first_chars; simpl; tauto).
      rewrite app_comm_cons.
      rewrite IH; [reflexivity|discriminate|reflexivity|unfold list_sum in *; lia].
    + apply parse_string_quoted.
    + rewrite (skip_ws_json x a _ Ea). apply Hx; [exact Ea|lia|left; reflexivity].
Qed.

Lemma parse_value_json : forall v, parses_back v.
Proof.
  apply json_ind'; unfold parses_back.
  - intros s Hs fuel rest Hf Hr. cbn in Hs. injection Hs as <-.
    destruct fuel as [|f]; [cbn in Hf; lia|]. reflexivity.
  - intros b s Hs fuel rest Hf Hr. cbn in Hs. injection Hs as <-.
    destruct fuel as [|f]; [cbn in Hf; lia|]. destruct b; reflexivity.
  - intros q s Hs fuel rest Hf Hr. cbn [json_to_chars] in Hs.
    destruct ((Qden q =? 1)%positive && (Z.abs (Qnum q) <? 2 ^ 53)) eqn:Hc; [|discriminate].
    apply andb_true_iff in Hc as [Hd1 _]. apply Pos.eqb_eq in Hd1.
    injection Hs as <-. destruct fuel as [|f]; [cbn in Hf; lia|].
    destruct (z_to_string_digits (Qnum q)) as (d & ds & E & Hall & Hv & Hd).
    rewrite E, <- app_assoc.
    pose proof (parse_number_digits (Qnum q <? 0) d ds rest Hall Hd Hr) as P.
    assert (Hq : JNum (inject_Z (if Qnum q <? 0 then - digits_value (d :: ds)
                                  else digits_value (d :: ds))) = JNum q).
    { rewrite Hv. destruct q as [n den]. cbn [Qnum Qden] in *. subst den.
      unfold inject_Z. f_equal. f_equal. destruct (Z.ltb_spec n 0); lia. }
    destruct (Qnum q <? 0).
    + cbn [app] in P |- *. rewrite parse_value_number_S by (left; reflexivity).
      rewrite P. cbn [js_bind]. rewrite Hq. reflexivity.
    + cbn [app map] in P |- *. rewrite parse_value_number_S.
      * rewrite P. cbn [js_bind]. rewrite Hq. reflexivity.
      * inversion Hall as [|? ? Hd0 _]; subst. apply digit_char_first in Hd0.
        right. exact Hd0.
  - intros str s Hs fuel rest Hf Hr. cbn [json_to_chars] in Hs. injection Hs as <-.
    destruct fuel as [|f]; [cbn in Hf; lia|].
    assert (E : quote_json_string str ++ rest =
                dquote :: (List.concat (map quote_char (list_ascii_of_string str)) ++ [dquote])
                  ++ rest) by reflexivity.
    rewrite E, parse_value_string_S, <- E, parse_string_quoted. reflexivity.
  - intros xs Hxs s Hs fuel rest Hf Hr. cbn [json_to_chars] in Hs.
    destruct (join_opt json_to_chars xs) as [b|] eqn:Hj; [|discriminate].
    cbn [option_map] in Hs. injection Hs as <-. cbn [jsize] in Hf.
    destruct fuel as [|f]; [lia|].
    destruct xs as [|x xs'].
    + cbn in Hj. injection Hj as <-. reflexivity.
    + destruct (join_first (x :: xs') b ltac:(discriminate) Hj) as (c & r & -> & Hc).
      rewrite <- app_comm_cons, <- app_assoc, <- app_comm_cons.
      rewrite parse_value_arr_S by exact Hc.
      change (c :: r ++ ["]"%char] ++ rest) with ((c :: r) ++ "]"%char :: rest).
      rewrite (parse_elements_json (x :: xs') Hxs (c :: r) ltac:(discriminate) Hj f rest);
        [reflexivity|lia].
  - intros ms Hms s Hs fuel rest Hf Hr. cbn [json_to_chars] in Hs.
    change (option_map (fun b => "{"%char :: b ++ ["}"%char]) (join_opt member_chars ms) = Some s)
      in Hs.
    destruct (join_opt member_chars ms) as [b|] eqn:Hj; [|discriminate].
    cbn [option_map] in Hs. injection Hs as <-. cbn [jsize] in Hf.
    destruct fuel as [|f]; [lia|].
    destruct ms as [|kv ms'].
    + cbn in Hj. injection Hj as <-. reflexivity.
    + destruct (member_join_first (kv :: ms') b ltac:(discriminate) Hj) as (r & ->).
      rewrite <- app_comm_cons, <- app_assoc, <- app_comm_cons.
      rewrite parse_value_obj_S.
      change (dquote :: r ++ ["}"%char] ++ rest) with ((dquote :: r) ++ "}"%char :: rest).
      rewrite (parse_members_json (kv :: ms') Hms (dquote :: r) ltac:(discriminate) Hj f rest);
        [reflexivity|lia].
Qed.

Lemma join_opt_size {A} (f : A -> option (list ascii)) (g : A -> nat) (xs : list A) :
  Forall (fun x => forall a, f x = Some a -> (g x <= 2 * List.length a)%nat) xs ->
  forall b, join_opt f xs = Some b ->
  (list_sum (map (fun x => S (g x)) xs) <= 2 * List.length b + 2)%nat.
Proof.
  induction 1 as [|x xs Hx Hxs IH]; intros b Hj; [cbn; lia|].
  cbn [join_opt] in Hj. destruct (f x) as [a|] eqn:Ea; [|discriminate].
  destruct (join_opt f xs) as [b'|] eqn:Eb; [|discriminate].
  injection Hj as <-. specialize (Hx a eq_refl). specialize (IH b' eq_refl).
  cbn [map list_sum fold_right]. unfold list_sum in IH. rewrite length_app.
  destruct xs as [|x' xs'].
  - cbn in IH |- *. lia.
  - cbn [List.length] in *. lia.
Qed.

Lemma jsize_chars : forall v s, json_to_chars v = Some s -> (jsize v <= 2 * List.length s)%nat.
Proof.
  apply (json_ind' (fun v => forall s, json_to_chars v = Some s ->
                              (jsize v <= 2 * List.length s)%nat)).
  - intros s Hs. cbn in Hs. injection Hs as <-. cbn. lia.
  - intros b s Hs. cbn in Hs. injection Hs as <-. destruct b; cbn; lia.
  - intros q s Hs. cbn [json_to_chars] in Hs. destruct (_ && _); [|discriminate].
    injection Hs as <-. destruct (z_to_string_digits (Qnum q)) as (d & ds & E & _).
    rewrite E, length_app. cbn. lia.
  - intros str s Hs. cbn [json_to_chars] in Hs. injection Hs as <-.
    unfold quote_json_string. cbn [List.length jsize]. lia.
  - intros xs Hxs s Hs. cbn [json_to_chars] in Hs.
    destruct (join_opt json_to_chars xs) as [b|] eqn:Hj; [|discriminate].
    cbn [option_map] in Hs. injection Hs as <-.
    pose proof (join_opt_size json_to_chars jsize xs Hxs b Hj) as H.
    cbn [jsize List.length]. rewrite length_app. cbn [List.length]. lia.
  - intros ms Hms s Hs. cbn [json_to_chars] in Hs.
    change (option_map (fun b => "{"%char :: b ++ ["}"%char]) (join_opt member_chars ms) = Some s)
      in Hs.
    destruct (join_opt member_chars ms) as [b|] eqn:Hj; [|discriminate].
    cbn [option_map] in Hs. injection Hs as <-.
    assert (Hms' : Forall (fun kv => forall a, member_chars kv = Some a ->
                     ((fun '(_, x) => jsize x) kv <= 2 * List.length a)%nat) ms).
    { eapply Forall_impl; [|exact Hms]. intros [k x] Hx a Ha. cbn [snd] in Hx.
      cbn [member_chars] in Ha. destruct (json_to_chars x) as [a'|] eqn:Ea; [|discriminate].
      cbn [option_map] in Ha.
      pose proof (f_equal (fun o => match o with Some l => l | None => [] end) Ha) as E.
      cbv beta iota in E. subst a. specialize (Hx a' eq_refl).
      rewrite length_app. cbn [List.length]. lia. }
    pose proof (join_opt_size member_chars (fun '(_, x) => jsize x) ms Hms' b Hj) as H.
    cbn [jsize List.length]. rewrite length_app. cbn [List.length].
    match goal with |- (S (S (list_sum ?l)) <= _)%nat =>
      assert (list_sum l <= 2 * List.length b + 2)%nat
        by (replace l with (map (fun x : string * json => S ((fun '(_, x0) => jsize x0) x)) ms);
            [exact H|apply map_ext; intros [k x]; reflexivity]) end.
    lia.
Qed.

(** X16: what a save effect writes is read back unchanged by the matching
    initializer: for every value [v] that [JSON.stringify] prints to [s],
    [JSON.parse s] returns [v], [s] is non-empty so the initializer does
    not fall back to [[]], and saving then reloading yields [v]. *)
Theorem storage_roundtrip (v : json) (s : string) (Hs : JSON_stringify v = Some s) :
  JSON_parse s = Ok v /\ init_from_storage (Some s) = Ok v /\ save_and_reload v = Some (Ok v).
Proof.
  unfold JSON_stringify in Hs.
  destruct (json_to_chars v) as [cs|] eqn:Hc; [|discriminate]. injection Hs as <-.
  assert (Hp : JSON_parse (string_of_list_ascii cs) = Ok v).
  { unfold JSON_parse. rewrite list_ascii_of_string_of_list_ascii.
    assert (Hw : skip_ws cs = cs).
    { pose proof (skip_ws_json v cs [] Hc) as H. rewrite app_nil_r in H. exact H. }
    rewrite Hw.
    assert (Hf : (jsize v <= 2 * List.length cs + 2)%nat)
      by (pose proof (jsize_chars v cs Hc); lia).
    pose proof (parse_value_json v cs Hc (2 * List.length cs + 2)%nat [] Hf I) as P.
    rewrite app_nil_r in P. rewrite P. reflexivity. }
  assert (Hi : init_from_storage (Some (string_of_list_ascii cs)) = Ok v).
  { destruct (json_to_chars_first v cs Hc) as (c & r & -> & _).
    unfold init_from_storage.
    assert (Hne : (string_of_list_ascii (c :: r) =? EmptyString)%string = false)
      by reflexivity.
    rewrite Hne. exact Hp. }
  split; [exact Hp|]. split; [exact Hi|].
  unfold save_and_reload, JSON_stringify. rewrite Hc. cbn [option_map]. rewrite Hi. reflexivity.
Qed.

Lemma storage_roundtrip_witness :
  exists s, JSON_stringify sample_saved = Some s /\
    (JSON_parse s = Ok sample_saved /\ init_from_storage (Some s) = Ok sample_saved /\
     save_and_reload sample_saved = Some (Ok sample_saved)).
Proof.
  exists (match JSON_stringify sample_saved with Some s => s | None => EmptyString end).
  assert (Hs : JSON_stringify sample_saved =
               Some (match JSON_stringify sample_saved with Some s => s | None => EmptyString end))
    by (vm_compute; reflexivity).
  split; [exact Hs|]. exact (storage_roundtrip sample_saved _ Hs).
Defined.

(** X17: the initializers do not catch errors of [JSON.parse]: a saved
    value followed by a stray comma or closing bracket (and anything
    after it) makes the initializer throw [SyntaxError] instead of
    falling back to [[]]. *)
Theorem trailing_text_throws (v : json) (s r : string) (c : ascii)
    (Hs : JSON_stringify v = Some s) (Hc : c = ","%char \/ c = "]"%char \/ c = "}"%char) :
  init_from_storage (Some (s ++ String c r)%string) = Throw SyntaxError.
Proof.
  unfold JSON_stringify in Hs.
  destruct (json_to_chars v) as [cs|] eqn:Hv; [|discriminate]. injection Hs as <-.
  assert (Hend : value_end (c :: list_ascii_of_string r)) by exact Hc.
  destruct (json_to_chars_first v cs Hv) as (c0 & r0 & -> & _).
  unfold init_from_storage.
  assert (Hne : ((string_of_list_ascii (c0 :: r0) ++ String c r)%string =? EmptyString)%string
                = false) by reflexivity.
  rewrite Hne. unfold JSON_parse.
  rewrite list_ascii_of_string_append, list_ascii_of_string_of_list_ascii.
  change (list_ascii_of_string (String c r)) with (c :: list_ascii_of_string r).
  rewrite (skip_ws_json v _ _ Hv).
  assert (Hf : (jsize v <= 2 * List.length ((c0 :: r0) ++ c :: list_ascii_of_string r) + 2)%nat)
    by (pose proof (jsize_chars v _ Hv); rewrite length_app; lia).
  rewrite (parse_value_json v _ Hv _ _ Hf Hend). cbn [js_bind].
  destruct Hc as [-> | [-> | ->]]; reflexivity.
Qed.

Lemma trailing_text_throws_witness :
  exists s, JSON_stringify sample_saved = Some s /\
    init_from_storage (Some (s ++ String "]" EmptyString)%string) = Throw SyntaxError.
Proof.
  exists (match JSON_stringify sample_saved with Some s => s | None => EmptyString end).
  assert (Hs : JSON_stringify sample_saved =
               Some (match JSON_stringify sample_saved with Some s => s | None => EmptyString end))
    by (vm_compute; reflexivity).
  split; [exact Hs|].
  exact (trailing_text_throws sample_saved _ EmptyString "]" Hs (or_intror (or_introl eq_refl))).
Defined.
